(** * soft-serve: the [migrate-config] command

    A shallow embedding of [cmd/soft/migrate_config.go]: the one-shot
    migration of a legacy (file based) soft-serve installation into the
    sqlite backend.

    The command talks to the operating system, to the legacy [config] git
    repository and to the backend.  None of these is code of the file; they
    are collected in the interface [Platform], whose operations transform an
    abstract world.  The Go code itself ([RunE], [isGitDir], [copyFile],
    [copyDir]) is written in a state-and-error monad over that world, which
    also records what the program prints and which backend calls it issues. *)

From Stdlib Require Import ZArith String Ascii DecimalString.
From Stdlib.Strings Require Import Byte.
From Stdlib Require DecimalPos DecimalZ.
From stdpp Require Import base option list strings gmap.

Local Open Scope string_scope.
Local Open Scope Z_scope.
Local Open Scope list_scope.

(** ** Go values *)

(** A Go [error]: either a message produced by some package, or the result of
    [fmt.Errorf("<prefix>%w", err)], which wraps [err]. *)
Inductive error : Type :=
| errorString (msg : string)
| wrapError (prefix : string) (err : error).

(** [(T, error)], the usual result of a fallible Go call. *)
Inductive result (A : Type) : Type :=
| Ok (a : A)
| Err (e : error).
Arguments Ok {A} a.
Arguments Err {A} e.

Definition is_Ok {A} (r : result A) : bool :=
  match r with Ok _ => true | Err _ => false end.

(** [fs.FileMode]; only passed around. *)
Definition FileMode := Z.

(** What the program reads of an [os.FileInfo]. *)
Record FileInfo := mkFileInfo { fi_IsDir : bool; fi_Mode : FileMode }.

(** What the program reads of an [os.DirEntry]. *)
Record DirEntry := mkDirEntry { de_Name : string; de_IsDir : bool }.

(** ** The legacy configuration (the types at the end of the file) *)

Module User.
Record t := mk {
  Name : string;
  Admin : bool;
  PublicKeys : list string;
  CollabRepos : list string }.
End User.

Module RepoConfig.
Record t := mk {
  Name : string;
  Repo : string;
  Note : string;
  Private : bool;
  Readme : string;
  Collabs : list string }.
End RepoConfig.

Module Config.
Record t := mk {
  Name : string;
  Host : string;
  Port : Z;
  AnonAccess : string;
  AllowKeyless : bool;
  Users : list User.t;
  Repos : list RepoConfig.t }.
End Config.

(** ** The target configuration, [server/config.Config]

    The type is declared in package [server/config]; these are the fields the
    command reads or assigns. *)
Module config.
Record SSHConfig := mkSSH {
  ListenAddr : string;
  KeyPath : string;
  PublicURL : string }.
Record Config := mk {
  Name : string;
  SSH : SSHConfig;
  DataPath : string }.

Definition with_Name (c : Config) (n : string) : Config :=
  mk n (SSH c) (DataPath c).
Definition with_ListenAddr (c : Config) (a : string) : Config :=
  mk (Name c) (mkSSH a (KeyPath (SSH c)) (PublicURL (SSH c))) (DataPath c).
Definition with_KeyPath (c : Config) (k : string) : Config :=
  mk (Name c) (mkSSH (ListenAddr (SSH c)) k (PublicURL (SSH c))) (DataPath c).
Definition with_PublicURL (c : Config) (u : string) : Config :=
  mk (Name c) (mkSSH (ListenAddr (SSH c)) (KeyPath (SSH c)) u) (DataPath c).
End config.

(** [backend.UserOptions], over the type of parsed public keys. *)
Record UserOptions (PK : Type) := mkUserOptions {
  uo_Admin : bool;
  uo_PublicKeys : list PK }.
Arguments mkUserOptions {PK} _ _.
Arguments uo_Admin {PK} _.
Arguments uo_PublicKeys {PK} _.

(** ** What a run does that can be observed *)

(** An argument of a formatting call. *)
Inductive arg : Type :=
| AStr (s : string)
| AInt (z : Z)
| AErr (e : error).

(** The calls the command issues on the backend and on the configuration
    writer, with their arguments. *)
Inductive call (PK : Type) : Type :=
| NewSqliteBackend (cfg : config.Config)
| SetAllowKeyless (b : bool)
| SetAnonAccess (level : Z)
| CreateRepository (name : string)
| SetProjectName (repo name : string)
| SetDescription (repo desc : string)
| SetPrivate (repo : string) (private : bool)
| AddCollaborator (repo user : string)
| CreateUser (name : string) (opts : UserOptions PK)
| WriteConfig (path : string) (cfg : config.Config).
Arguments NewSqliteBackend {PK} _.
Arguments SetAllowKeyless {PK} _.
Arguments SetAnonAccess {PK} _.
Arguments CreateRepository {PK} _.
Arguments SetProjectName {PK} _ _.
Arguments SetDescription {PK} _ _.
Arguments SetPrivate {PK} _ _.
Arguments AddCollaborator {PK} _ _.
Arguments CreateUser {PK} _ _.
Arguments WriteConfig {PK} _ _.

(** One entry of the trace of a run.  Messages are kept as the format string
    and its arguments, as the source writes them. *)
Inductive event (PK : Type) : Type :=
| LogInfo (format : string) (args : list arg)     (* log.Info, log.Infof *)
| LogError (format : string) (args : list arg)    (* log.Errorf *)
| Stderr (format : string) (args : list arg)      (* fmt.Fprintf(os.Stderr, ..) *)
| Println (e : error)                             (* fmt.Println(err) *)
| Called (c : call PK).
Arguments LogInfo {PK} _ _.
Arguments LogError {PK} _ _.
Arguments Stderr {PK} _ _.
Arguments Println {PK} _.
Arguments Called {PK} _.

(** ** The platform: everything the file calls and does not define *)

Class Platform := {
  World : Type;
  (** opaque values handed back by the libraries *)
  PublicKey : Type;           (* ssh.PublicKey *)
  File : Type;                (* *os.File *)
  GitRepo : Type;             (* *git.Repository *)
  GitRef : Type;              (* *git.Reference *)
  GitTree : Type;             (* *git.Tree *)
  GitTreeEntry : Type;        (* *git.TreeEntry *)

  (** package os, io, path/filepath *)
  os_Getenv : string → World → string;
  os_Stat : string → World → result FileInfo;
  os_ReadDir : string → World → result (list DirEntry);
  os_MkdirAll : string → FileMode → World → result unit * World;
  os_Open : string → World → result File * World;
  os_Create : string → World → result File * World;
  os_Chmod : string → FileMode → World → result unit * World;
  file_Close : File → World → World;
  io_Copy : File → File → World → result Z * World;
  filepath_Join : list string → string;
  filepath_Base : string → string;

  (** package git, on the legacy config repository *)
  git_Open : string → World → result GitRepo;
  git_HEAD : GitRepo → World → result GitRef;
  git_TreePath : GitRepo → GitRef → string → World → result GitTree;
  git_TreeEntry : GitTree → string → World → result GitTreeEntry;
  git_Contents : GitTreeEntry → World → result (list byte);

  (** encoding/json and yaml.v3, decoding into a [Config] *)
  json_Unmarshal : list byte → result Config.t;
  yaml_Unmarshal : list byte → result Config.t;

  (** packages server/config, server/utils, server/backend *)
  config_DefaultConfig : World → config.Config;
  utils_SanitizeRepo : string → string;
  backend_ParseAccessLevel : string → Z;
  backend_ParseAuthorizedKey : string → result PublicKey;
  backend_MarshalAuthorizedKey : PublicKey → string;

  (** the backend, [sqlite.SqliteBackend], and [config.WriteConfig];
      [backend_do c w] performs the call [c] and yields its error, if any *)
  backend_do : call PublicKey → World → result unit * World;

  (** [strings.Map(unicode.ToLower, s)], the path [strings.ToLower] takes on
      a string that is not pure ASCII *)
  strings_Map_unicode_ToLower : string → string;

  (** the order in which a [range] over a Go map visits its entries: not
      specified by the language, but every entry is visited exactly once *)
  maprange : World → gmap string PublicKey → list (string * PublicKey);
  maprange_perm : ∀ w m, maprange w m ≡ₚ map_to_list m
}.

(** ** The monad of the command

    A computation reads and changes a state, may return a Go error, and (for
    the recursive [copyDir] only) may run out of fuel, which is [None]. *)

Definition M (S A : Type) : Type := S → option (result A * S).

Definition ret {S A} (a : A) : M S A := λ s, Some (Ok a, s).

(** Sequencing, with [if err != nil { return err }] after the first step. *)
Definition bind {S A B} (m : M S A) (f : A → M S B) : M S B := λ s,
  match m s with
  | Some (Ok a, s') => f a s'
  | Some (Err e, s') => Some (Err e, s')
  | None => None
  end.

Notation "'let*' x := m 'in' k" := (bind m (λ x, k))
  (at level 10, x name, m at level 100, k at level 200,
   format "'[v' 'let*'  x  :=  m  'in' '/' k ']'").

(** [err := m], where the program goes on and looks at [err] itself. *)
Definition attempt {S A} (m : M S A) : M S (result A) := λ s,
  match m s with
  | Some (r, s') => Some (Ok r, s')
  | None => None
  end.

(** [if err := m; err != nil { h err }] *)
Definition onErr {S A} (m : M S A) (h : error → M S unit) : M S unit :=
  let* r := attempt m in
  match r with
  | Err err => h err
  | Ok _ => ret tt
  end.

(** [if err := m; err != nil { return fmt.Errorf("<prefix>%w", err) }] *)
Definition orWrap {S A} (prefix : string) (m : M S A) : M S A := λ s,
  match m s with
  | Some (Err e, s') => Some (Err (wrapError prefix e), s')
  | o => o
  end.

(** [defer cleanup()] in front of [body]: the cleanup runs when [body]
    returns, with or without an error. *)
Definition defer {S A} (cleanup : S → S) (body : M S A) : M S A := λ s,
  match body s with
  | Some (r, s') => Some (r, cleanup s')
  | None => None
  end.

(** [for _, x := range l { body x }], where [body] may return an error out of
    the enclosing function and [continue] is [ret tt]. *)
Fixpoint forM_ {S A} (l : list A) (body : A → M S unit) : M S unit :=
  match l with
  | [] => ret tt
  | x :: l' => let* _ := body x in forM_ l' body
  end.

(** ** Package strings and fmt, as far as the command uses them *)

Fixpoint string_map (f : ascii → ascii) (s : string) : string :=
  match s with
  | EmptyString => EmptyString
  | String c s' => String (f c) (string_map f s')
  end.

Fixpoint string_forallb (f : ascii → bool) (s : string) : bool :=
  match s with
  | EmptyString => true
  | String c s' => f c && string_forallb f s'
  end.

Fixpoint string_existsb (f : ascii → bool) (s : string) : bool :=
  match s with
  | EmptyString => false
  | String c s' => f c || string_existsb f s'
  end.

(** ['A' <= c && c <= 'Z'] *)
Definition isUpperByte (c : ascii) : bool :=
  ((65 <=? nat_of_ascii c) && (nat_of_ascii c <=? 90))%nat.

(** [c < utf8.RuneSelf] *)
Definition isASCIIByte (c : ascii) : bool := (nat_of_ascii c <? 128)%nat.

(** [c += 'a' - 'A'] on an upper-case byte *)
Definition toLowerByte (c : ascii) : ascii :=
  if isUpperByte c then ascii_of_nat (nat_of_ascii c + 32) else c.

(** [strings.ReplaceAll(s, old, new)] for a non-empty [old]: the occurrences
    of [old] are found from the left and do not overlap.  [skip] counts the
    bytes of a replaced occurrence still to be dropped. *)
Fixpoint replaceFrom (old new : string) (skip : nat) (s : string) : string :=
  match s with
  | EmptyString => EmptyString
  | String c s' =>
      match skip with
      | S k => replaceFrom old new k s'
      | O =>
          if String.prefix old s
          then new +:+ replaceFrom old new (String.length old - 1) s'
          else String c (replaceFrom old new 0 s')
      end
  end.

(** With an empty [old], Go inserts [new] in front of every rune and at the
    end; on bytes here.  The command always passes [old = " "]. *)
Fixpoint interleave (new s : string) : string :=
  match s with
  | EmptyString => new
  | String c s' => new +:+ String c (interleave new s')
  end.

Definition strings_ReplaceAll (s old new : string) : string :=
  if decide (old = new) then s
  else if decide (old = "") then interleave new s
  else replaceFrom old new 0 s.

(** [err.Error()] *)
Fixpoint Error (e : error) : string :=
  match e with
  | errorString msg => msg
  | wrapError prefix err => prefix +:+ Error err
  end.

(** [strconv.Itoa]: decimal digits, with a leading [-] below zero. *)
Definition Itoa (z : Z) : string := NilZero.string_of_int (Z.to_int z).

(** One verb of [fmt.Sprintf] applied to one argument: [%s] and [%d], the
    verbs of the one [Sprintf] call of the command. *)
Definition formatVerb (verb : ascii) (a : arg) : string :=
  match a with
  | AStr s => if Ascii.eqb verb "s"%char then s
              else "%!" +:+ String verb "(string=" +:+ s +:+ ")"
  | AInt z => if Ascii.eqb verb "d"%char then Itoa z
              else if Ascii.eqb verb "s"%char then "%!s(int=" +:+ Itoa z +:+ ")"
              else "%!" +:+ String verb "(int=" +:+ Itoa z +:+ ")"
  | AErr e => if Ascii.eqb verb "s"%char then Error e
              else "%!" +:+ String verb "(error=" +:+ Error e +:+ ")"
  end.

(** [fmt.Sprintf(format, args...)] *)
Fixpoint Sprintf (format : string) (args : list arg) : string :=
  match format with
  | EmptyString => EmptyString
  | String "%" (String verb rest) =>
      if Ascii.eqb verb "%"%char then String "%" (Sprintf rest args)
      else match args with
           | a :: args' => formatVerb verb a +:+ Sprintf rest args'
           | [] => "%!" +:+ String verb "(MISSING)" +:+ Sprintf rest []
           end
  | String c rest => String c (Sprintf rest args)
  end.

(** ** The command *)

Section Command.
Context {P : Platform}.

(** The state of a run: the world, and what the run has printed and
    called so far. *)
Record state := mkState {
  world : World;
  trace : list (event PublicKey) }.

Abbreviation Run := (M state).

(** A trace entry: a log line, a line on a standard stream. *)
Definition record (ev : event PublicKey) (s : state) : state :=
  mkState (world s) (trace s ++ [ev]).

Definition emit (ev : event PublicKey) : Run unit :=
  λ s, Some (Ok tt, record ev s).

(** A library call that may change the world. *)
Definition sys {A} (op : World → result A * World) : Run A :=
  λ s, let (r, w) := op (world s) in Some (r, mkState w (trace s)).

(** A library call that only inspects the world. *)
Definition peek {A} (op : World → result A) : Run A :=
  λ s, Some (op (world s), s).

(** A library call that cannot fail. *)
Definition read {A} (op : World → A) : Run A :=
  λ s, Some (Ok (op (world s)), s).

(** [f.Close()], its error dropped. *)
Definition close (f : File) (s : state) : state :=
  mkState (file_Close f (world s)) (trace s).

(** A call on the backend; the call is entered in the trace. *)
Definition backend (c : call PublicKey) : Run unit :=
  let* _ := emit (Called c) in sys (backend_do c).

(** [strings.ToLower]: bytes on an ASCII string, runes otherwise. *)
Definition strings_ToLower (s : string) : string :=
  if string_forallb isASCIIByte s then
    if negb (string_existsb isUpperByte s) then s
    else string_map toLowerByte s
  else strings_Map_unicode_ToLower s.

(** *** [isGitDir] *)

Definition isGitDir (path : string) (w : World) : bool :=
  match os_Stat (filepath_Join [path; "objects"]) w with
  | Err _ => false
  | Ok stat =>
      if negb (fi_IsDir stat) then false
      else
        match os_Stat (filepath_Join [path; "HEAD"]) w with
        | Err _ => false
        | Ok stat => if fi_IsDir stat then false else true
        end
  end.

(** *** [copyFile] *)

Definition copyFile (src dst : string) : Run unit :=
  let* srcfd := sys (os_Open src) in
  defer (close srcfd) (
    let* dstfd := sys (os_Create dst) in
    defer (close dstfd) (
      let* _ := sys (io_Copy dstfd srcfd) in
      let* srcinfo := peek (os_Stat src) in
      sys (os_Chmod dst (fi_Mode srcinfo)))).

(** *** [copyDir]

    The recursion follows the directory tree that [os.ReadDir] reports,
    which no argument bounds: [fuel] bounds its depth. *)

(** the body of the loop over the entries of [src]; [copyDir] is the
    recursive call *)
Definition copyEntry (copyDir : string → string → Run unit)
    (src dst : string) (fd : DirEntry) : Run unit :=
  let srcfp := filepath_Join [src; de_Name fd] in
  let dstfp := filepath_Join [dst; de_Name fd] in
  if de_IsDir fd then
    onErr (copyDir srcfp dstfp) (λ err, emit (Println err))
  else
    onErr (copyFile srcfp dstfp) (λ err, emit (Println err)).

Fixpoint copyDir (fuel : nat) (src dst : string) : Run unit :=
  match fuel with
  | O => λ _, None
  | S fuel =>
      let* srcinfo := peek (os_Stat src) in
      let* _ := sys (os_MkdirAll dst (fi_Mode srcinfo)) in
      let* fds := peek (os_ReadDir src) in
      let* _ := forM_ fds (copyEntry (copyDir fuel) src dst) in
      ret tt
  end.

(** *** [migrateConfig.RunE], phase by phase *)

(** "Copy SSH host key" *)
Definition copySSHHostKey (keyPath : string) (cfg : config.Config)
  : Run config.Config :=
  if decide (keyPath ≠ "") then
    let ssh := filepath_Join [config.DataPath cfg; "ssh"] in
    let key := filepath_Join [config.DataPath cfg; "ssh"; filepath_Base keyPath] in
    let* _ := orWrap "failed to create ssh directory: "
                (sys (os_MkdirAll ssh 448)) in
    let* _ := orWrap "failed to copy ssh key: " (copyFile keyPath key) in
    let* _ := onErr (copyFile (keyPath +:+ ".pub") (key +:+ ".pub"))
                (λ err, emit (LogError "failed to copy ssh key: %s" [AErr err])) in
    ret (config.with_KeyPath cfg key)
  else ret cfg.

(** "Read config": the entry of the root tree that holds the legacy
    configuration, and whether it is the JSON one. *)
Definition configEntry (tree : GitTree) : Run (GitTreeEntry * bool) :=
  let* r := attempt (peek (git_TreeEntry tree "config.yaml")) in
  match r with
  | Ok te => ret (te, false)
  | Err _ =>
      let* te := orWrap "failed to get config file: "
                   (peek (git_TreeEntry tree "config.json")) in
      ret (te, true)
  end.

Definition readConfig (reposPath : string) : Run Config.t :=
  let* r := orWrap "failed to open config repo: "
              (peek (git_Open (filepath_Join [reposPath; "config"]))) in
  let* head := orWrap "failed to get head: " (peek (git_HEAD r)) in
  let* tree := orWrap "failed to get tree: " (peek (git_TreePath r head "")) in
  let* e := configEntry tree in
  let '(te, isJson) := e in
  let* cc := orWrap "failed to get config contents: " (peek (git_Contents te)) in
  if isJson then
    orWrap "failed to unmarshal config: " (peek (λ _, json_Unmarshal cc))
  else
    orWrap "failed to unmarshal config: " (peek (λ _, yaml_Unmarshal cc)).

(** "Set server settings" *)
Definition setServerSettings (ocfg : Config.t) : Run unit :=
  let* _ := emit (LogInfo "Setting server settings..." []) in
  let* _ := onErr (backend (SetAllowKeyless (Config.AllowKeyless ocfg)))
              (λ _, emit (Stderr "failed to set allow keyless\n" [])) in
  let anon := backend_ParseAccessLevel (Config.AnonAccess ocfg) in
  if decide (anon >= 0) then
    onErr (backend (SetAnonAccess anon))
      (λ err, emit (Stderr "failed to set anon access: %s\n" [AErr err]))
  else ret tt.

(** "Copy repos": one turn of the loop over the legacy storage root *)
Definition copyRepo (fuel : nat) (reposPath : string) (cfg : config.Config)
    (dir : DirEntry) : Run unit :=
  if negb (de_IsDir dir) then ret tt
  else
    let* git := read (isGitDir (filepath_Join [reposPath; de_Name dir])) in
    if negb git then ret tt
    else
      let* _ := emit (LogInfo "  Copying repo %s" [AStr (de_Name dir)]) in
      let* _ := orWrap "failed to create repos directory: "
                  (sys (os_MkdirAll (filepath_Join [config.DataPath cfg; "repos"]) 448)) in
      let src := utils_SanitizeRepo (filepath_Join [reposPath; de_Name dir]) in
      let dst := utils_SanitizeRepo
                   (filepath_Join [config.DataPath cfg; "repos"; de_Name dir])
                 +:+ ".git" in
      let* _ := orWrap "failed to copy repo: " (copyDir fuel src dst) in
      onErr (backend (CreateRepository (de_Name dir)))
        (λ err, emit (Stderr "failed to create repository: %s\n" [AErr err])).

Definition copyRepos (fuel : nat) (reposPath : string) (cfg : config.Config)
  : Run unit :=
  if decide (reposPath ≠ "") then
    let* _ := emit (LogInfo "Copying repos..." []) in
    let* dirs := orWrap "failed to read repos directory: "
                   (peek (os_ReadDir reposPath)) in
    forM_ dirs (copyRepo fuel reposPath cfg)
  else ret tt.

(** "Set repos metadata & collabs": one turn of the loop *)
Definition setRepoMetadata (repo : RepoConfig.t) : Run unit :=
  let* _ := onErr (backend (SetProjectName (RepoConfig.Repo repo) (RepoConfig.Name repo)))
              (λ err, emit (LogError "failed to set repo name to %s: %s"
                              [AStr (RepoConfig.Repo repo); AErr err])) in
  let* _ := onErr (backend (SetDescription (RepoConfig.Repo repo) (RepoConfig.Note repo)))
              (λ err, emit (LogError "failed to set repo description to %s: %s"
                              [AStr (RepoConfig.Repo repo); AErr err])) in
  let* _ := onErr (backend (SetPrivate (RepoConfig.Repo repo) (RepoConfig.Private repo)))
              (λ err, emit (LogError "failed to set repo private to %s: %s"
                              [AStr (RepoConfig.Repo repo); AErr err])) in
  forM_ (RepoConfig.Collabs repo) (λ collab,
    onErr (backend (AddCollaborator (RepoConfig.Repo repo) collab))
      (λ err, emit (LogError "failed to add repo collab to %s: %s"
                      [AStr (RepoConfig.Repo repo); AErr err]))).

(** "Create users & collabs": one turn of the loop that fills the map
    [keys] of a user *)
Definition addKey (keys : gmap string PublicKey) (key : string)
  : gmap string PublicKey :=
  match backend_ParseAuthorizedKey key with
  | Err _ => keys
  | Ok pk => <[backend_MarshalAuthorizedKey pk := pk]> keys
  end.

Definition collectKeys (publicKeys : list string) : gmap string PublicKey :=
  foldl addKey ∅ publicKeys.

(** [pubkeys]: the values of [keys], in the order the [range] visits them *)
Definition pubkeysOf (user : User.t) (w : World) : list PublicKey :=
  (maprange w (collectKeys (User.PublicKeys user))).*2.

Definition usernameOf (user : User.t) : string :=
  let username := strings_ToLower (User.Name user) in
  strings_ReplaceAll username " " "-".

(** one turn of the loop over the legacy users *)
Definition createUser (user : User.t) : Run unit :=
  let* pubkeys := read (pubkeysOf user) in
  let username := usernameOf user in
  let* _ := emit (LogInfo "Creating user %q" [AStr username]) in
  let* _ := onErr (backend (CreateUser username
                              (mkUserOptions (User.Admin user) pubkeys)))
              (λ err, emit (LogError "failed to create user: %s" [AErr err])) in
  forM_ (User.CollabRepos user) (λ repo,
    onErr (backend (AddCollaborator repo username))
      (λ err, emit (LogError "failed to add user collab to %s: %s\n"
                      [AStr repo; AErr err]))).

(** The part of the run after the legacy configuration is read: it fills
    the target configuration and the backend. *)
Definition migrate (fuel : nat) (reposPath : string) (cfg : config.Config)
    (ocfg : Config.t) : Run config.Config :=
  let cfg := config.with_Name cfg (Config.Name ocfg) in
  let cfg := config.with_PublicURL cfg
               (Sprintf "ssh://%s:%d"
                  [AStr (Config.Host ocfg); AInt (Config.Port ocfg)]) in
  let* _ := setServerSettings ocfg in
  let* _ := copyRepos fuel reposPath cfg in
  let* _ := emit (LogInfo "Setting repos metadata & collabs..." []) in
  let* _ := forM_ (Config.Repos ocfg) setRepoMetadata in
  let* _ := emit (LogInfo "Creating users & collabs..." []) in
  let* _ := forM_ (Config.Users ocfg) createUser in
  ret cfg.

Definition RunE (fuel : nat) : Run unit :=
  let* keyPath := read (os_Getenv "SOFT_SERVE_KEY_PATH") in
  let* reposPath := read (os_Getenv "SOFT_SERVE_REPO_PATH") in
  let* bindAddr := read (os_Getenv "SOFT_SERVE_BIND_ADDRESS") in
  let* cfg := read config_DefaultConfig in
  let* _ := orWrap "failed to create sqlite backend: "
              (backend (NewSqliteBackend cfg)) in
  let* _ := emit (LogInfo "Setting SSH listen address..." []) in
  let cfg := if decide (bindAddr ≠ "")
             then config.with_ListenAddr cfg bindAddr else cfg in
  let* _ := emit (LogInfo "Copying SSH host key..." []) in
  let* cfg := copySSHHostKey keyPath cfg in
  let* _ := emit (LogInfo "Reading config repository..." []) in
  let* ocfg := readConfig reposPath in
  let* cfg := migrate fuel reposPath cfg ocfg in
  let* _ := emit (LogInfo "Writing config..." []) in
  defer (record (LogInfo "Done!" []))
    (backend (WriteConfig (filepath_Join [config.DataPath cfg; "config.yaml"]) cfg)).

End Command.

(** A platform has bounded depth when the directories that [os.ReadDir]
    reports get strictly closer to a limit, as they do where path names have
    a maximal length. *)
Class BoundedDepth (P : Platform) := {
  rank : string → nat;
  rank_ReadDir : ∀ w src fds fd,
    os_ReadDir src w = Ok fds → fd ∈ fds → de_IsDir fd = true →
    (rank (filepath_Join [src; de_Name fd]) < rank src)%nat
}.

(** ** A platform in memory

    A small file system of relative, slash separated paths, the root tree of
    the legacy [config] repository, and a backend that knows users,
    repositories and collaborators.  It runs inside Rocq, and gives the
    examples below something to run on. *)

Module Mock.

Inductive node : Type :=
| Dir (mode : FileMode)
| Regular (mode : FileMode) (data : list byte).

Record world := mkWorld {
  environ : list (string * string);
  files : list (string * node);
  tree : list (string * list byte);
  users : list string;
  repositories : list string;
  collabs : list (string * string) }.

Definition key : Type := string * string.

Fixpoint assoc {A} (k : string) (l : list (string * A)) : option A :=
  match l with
  | [] => None
  | (k', a) :: l' => if String.eqb k k' then Some a else assoc k l'
  end.

Definition mem (k : string) (l : list string) : bool :=
  existsb (String.eqb k) l.

Definition set {A} (k : string) (a : A) (l : list (string * A))
  : list (string * A) :=
  match assoc k l with
  | Some _ => map (λ e, if String.eqb k e.1 then (k, a) else e) l
  | None => l ++ [(k, a)]
  end.

Definition isSlash (c : ascii) : bool := Ascii.eqb c "/".

Fixpoint depth (p : string) : nat :=
  match p with
  | EmptyString => 0
  | String c p' => (if isSlash c then 1 else 0) + depth p'
  end.

Fixpoint splitOn (sep : ascii) (s : string) : list string :=
  match s with
  | EmptyString => [EmptyString]
  | String c s' =>
      if Ascii.eqb c sep then EmptyString :: splitOn sep s'
      else match splitOn sep s' with
           | h :: t => String c h :: t
           | [] => [String c EmptyString]
           end
  end.

Definition nonEmpty (s : string) : bool := negb (String.eqb s "").

Definition join2 (a b : string) : string :=
  if String.eqb a "" then b
  else if String.eqb b "" then a
  else a +:+ "/" +:+ b.

Definition Join (l : list string) : string := foldl join2 "" l.

Definition Base (p : string) : string := List.last (splitOn "/" p) "".

Definition limit : nat := 16.

Definition noent (op p : string) : error :=
  errorString (op +:+ " " +:+ p +:+ ": no such file or directory").

Definition Stat (p : string) (w : world) : result FileInfo :=
  match assoc p (files w) with
  | Some (Dir mode) => Ok (mkFileInfo true mode)
  | Some (Regular mode _) => Ok (mkFileInfo false mode)
  | None => Err (noent "stat" p)
  end.

(** the entry that [q] is in directory [p], if it is one *)
Definition childOf (p : string) (e : string * node) : option DirEntry :=
  let q := e.1 in
  if String.prefix (p +:+ "/") q then
    let name := String.substring (String.length p + 1)
                  (String.length q - String.length p - 1) q in
    if nonEmpty name && Nat.eqb (depth name) 0 then
      Some (mkDirEntry name match e.2 with Dir _ => true | _ => false end)
    else None
  else None.

Definition ReadDir (p : string) (w : world) : result (list DirEntry) :=
  if nonEmpty p && Nat.ltb (depth p) limit then
    match assoc p (files w) with
    | Some (Dir _) => Ok (omap (childOf p) (files w))
    | Some (Regular _ _) =>
        Err (errorString ("open " +:+ p +:+ ": not a directory"))
    | None => Err (noent "open" p)
    end
  else Err (errorString ("open " +:+ p +:+ ": file name too long")).

Fixpoint mkdirs (mode : FileMode) (prefix : string) (comps : list string)
    (fs : list (string * node)) : result unit * list (string * node) :=
  match comps with
  | [] => (Ok tt, fs)
  | c :: comps' =>
      let p := join2 prefix c in
      match assoc p fs with
      | Some (Dir _) => mkdirs mode p comps' fs
      | Some (Regular _ _) =>
          (Err (errorString ("mkdir " +:+ p +:+ ": not a directory")), fs)
      | None => mkdirs mode p comps' (fs ++ [(p, Dir mode)])
      end
  end.

Definition withFiles (w : world) (fs : list (string * node)) : world :=
  mkWorld (environ w) fs (tree w) (users w) (repositories w) (collabs w).

Definition MkdirAll (p : string) (mode : FileMode) (w : world)
  : result unit * world :=
  let (r, fs) := mkdirs mode "" (splitOn "/" p) (files w) in
  (r, withFiles w fs).

Definition Open (p : string) (w : world) : result string * world :=
  match assoc p (files w) with
  | Some _ => (Ok p, w)
  | None => (Err (noent "open" p), w)
  end.

Definition Create (p : string) (w : world) : result string * world :=
  match assoc p (files w) with
  | Some (Dir _) => (Err (errorString ("open " +:+ p +:+ ": is a directory")), w)
  | _ => (Ok p, withFiles w (set p (Regular 438 []) (files w)))
  end.

Definition Copy (dst src : string) (w : world) : result Z * world :=
  match assoc src (files w), assoc dst (files w) with
  | Some (Regular _ data), Some (Regular mode _) =>
      (Ok (Z.of_nat (List.length data)),
       withFiles w (set dst (Regular mode data) (files w)))
  | _, _ => (Err (errorString ("read " +:+ src +:+ ": is a directory")), w)
  end.

Definition Chmod (p : string) (mode : FileMode) (w : world)
  : result unit * world :=
  match assoc p (files w) with
  | Some (Dir _) => (Ok tt, withFiles w (set p (Dir mode) (files w)))
  | Some (Regular _ data) =>
      (Ok tt, withFiles w (set p (Regular mode data) (files w)))
  | None => (Err (noent "chmod" p), w)
  end.

Definition Getenv (name : string) (w : world) : string :=
  default "" (assoc name (environ w)).

(** [utils.SanitizeRepo]: no leading slash, no [.git] at the end *)
Definition trimPrefix (pre s : string) : string :=
  if String.prefix pre s
  then String.substring (String.length pre) (String.length s - String.length pre) s
  else s.

Definition trimSuffix (suf s : string) : string :=
  let n := (String.length s - String.length suf)%nat in
  if Nat.leb (String.length suf) (String.length s)
     && String.eqb (String.substring n (String.length suf) s) suf
  then String.substring 0 n s else s.

Definition SanitizeRepo (repo : string) : string :=
  trimSuffix ".git" (trimPrefix "/" repo).

(** [backend.ParseAccessLevel] *)
Definition ParseAccessLevel (s : string) : Z :=
  if String.eqb s "no-access" then 0
  else if String.eqb s "read-only" then 1
  else if String.eqb s "read-write" then 2
  else if String.eqb s "admin-access" then 3
  else -1.

(** An authorized key line is [<type> <base64> [comment]]; the canonical
    form drops the comment and the extra blanks. *)
Definition ParseAuthorizedKey (line : string) : result key :=
  match filter (λ f, nonEmpty f = true) (splitOn " " line) with
  | kind :: blob :: _ =>
      if String.prefix "ssh-" kind then Ok (kind, blob)
      else Err (errorString "ssh: no key found")
  | _ => Err (errorString "ssh: no key found")
  end.

Definition MarshalAuthorizedKey (k : key) : string := k.1 +:+ " " +:+ k.2.

Definition notFound : result unit := Err (errorString "repository not found").

Definition do (c : call key) (w : world) : result unit * world :=
  match c with
  | NewSqliteBackend _ | SetAllowKeyless _ | SetAnonAccess _
  | WriteConfig _ _ => (Ok tt, w)
  | CreateRepository name =>
      if mem name (repositories w)
      then (Err (errorString "repository already exists"), w)
      else (Ok tt, mkWorld (environ w) (files w) (tree w) (users w)
                     (repositories w ++ [name]) (collabs w))
  | SetProjectName repo _ | SetDescription repo _ | SetPrivate repo _ =>
      if mem repo (repositories w) then (Ok tt, w) else (notFound, w)
  | AddCollaborator repo user =>
      if mem repo (repositories w) && mem user (users w)
      then (Ok tt, mkWorld (environ w) (files w) (tree w) (users w)
                     (repositories w) (collabs w ++ [(repo, user)]))
      else (Err (errorString "NOT NULL constraint failed: collab"), w)
  | CreateUser name _ =>
      if mem name (users w)
      then (Err (errorString "UNIQUE constraint failed: user.username"), w)
      else (Ok tt, mkWorld (environ w) (files w) (tree w) (users w ++ [name])
                     (repositories w) (collabs w))
  end.

Definition TreeEntry (t : list (string * list byte)) (name : string)
    (w : world) : result (list byte) :=
  match assoc name t with
  | Some cc => Ok cc
  | None => Err (errorString "entry does not exist")
  end.

Definition OpenRepo (p : string) (w : world) : result unit :=
  match assoc p (files w) with
  | Some (Dir _) => Ok tt
  | _ => Err (errorString "repository does not exist")
  end.

(** The decoders are fixed by the two documents they know: a document that
    starts with [y] decodes as YAML to [yamlDoc], one that starts with an
    opening brace decodes as JSON to [jsonDoc]. *)
Definition Unmarshal (first : byte) (doc : Config.t) (cc : list byte)
  : result Config.t :=
  match cc with
  | b :: _ => if Byte.eqb b first then Ok doc
              else Err (errorString "cannot unmarshal")
  | [] => Err (errorString "unexpected end of input")
  end.

Definition defaultConfig : config.Config :=
  config.mk "Soft Serve" (config.mkSSH ":23231" "ssh/soft_serve_host" "ssh://localhost:23231") "data".

End Mock.

Definition mock (yamlDoc jsonDoc : Config.t) : Platform := {|
  World := Mock.world;
  PublicKey := Mock.key;
  File := string;
  GitRepo := unit;
  GitRef := unit;
  GitTree := list (string * list byte);
  GitTreeEntry := list byte;
  os_Getenv := Mock.Getenv;
  os_Stat := Mock.Stat;
  os_ReadDir := Mock.ReadDir;
  os_MkdirAll := Mock.MkdirAll;
  os_Open := Mock.Open;
  os_Create := Mock.Create;
  os_Chmod := Mock.Chmod;
  file_Close := λ _ w, w;
  io_Copy := Mock.Copy;
  filepath_Join := Mock.Join;
  filepath_Base := Mock.Base;
  git_Open := Mock.OpenRepo;
  git_HEAD := λ _ _, Ok tt;
  git_TreePath := λ _ _ _ w, Ok (Mock.tree w);
  git_TreeEntry := Mock.TreeEntry;
  git_Contents := λ te _, Ok te;
  json_Unmarshal := Mock.Unmarshal "{" jsonDoc;
  yaml_Unmarshal := Mock.Unmarshal "y" yamlDoc;
  config_DefaultConfig := λ _, Mock.defaultConfig;
  utils_SanitizeRepo := Mock.SanitizeRepo;
  backend_ParseAccessLevel := Mock.ParseAccessLevel;
  backend_ParseAuthorizedKey := Mock.ParseAuthorizedKey;
  backend_MarshalAuthorizedKey := Mock.MarshalAuthorizedKey;
  backend_do := Mock.do;
  strings_Map_unicode_ToLower := λ s, s;
  maprange := λ _ m, map_to_list m;
  maprange_perm := λ _ m, Permutation_refl (map_to_list m)
|}.

(** ** The vocabulary of the statements *)

(** the byte that takes the place of [c] when blanks become hyphens *)
Definition hyphenate (c : ascii) : ascii :=
  if Ascii.eqb c " " then "-"%char else c.

(** the backend calls among the entries of a trace, in order *)
Definition calls {PK} (evs : list (event PK)) : list (call PK) :=
  omap (λ ev, match ev with Called c => Some c | _ => None end) evs.

(** what a logged failure adds to the trace *)
Definition failureLog {PK A} (r : result A) (f : error → event PK)
  : list (event PK) :=
  match r with
  | Err e => [f e]
  | Ok _ => []
  end.

(** a property of the trace entries that only constrains the calls *)
Definition onCalls {PK} (Qc : call PK → Prop) (ev : event PK) : Prop :=
  match ev with
  | Called c => Qc c
  | _ => True
  end.

Section Vocabulary.
Context {P : Platform}.

(** [emits Q m]: whenever [m] returns, the trace has grown by entries that
    all satisfy [Q]. *)
Definition emits (Q : event PublicKey → Prop) {A} (m : M state A) : Prop :=
  ∀ s r s', m s = Some (r, s') →
    ∃ evs, trace s' = trace s ++ evs ∧ Forall Q evs.

(** the copy that a turn of the loop starts for the entry [fd] *)
Definition copyChild (copyDir : string → string → M state unit)
    (src dst : string) (fd : DirEntry) : M state unit :=
  if de_IsDir fd
  then copyDir (filepath_Join [src; de_Name fd])
         (filepath_Join [dst; de_Name fd])
  else copyFile (filepath_Join [src; de_Name fd])
         (filepath_Join [dst; de_Name fd]).

End Vocabulary.

(** ** The errors a run may return *)

(** [failsOnly Q m]: an error that [m] returns satisfies [Q]. *)
Definition failsOnly {S A} (Q : error → Prop) (m : M S A) : Prop :=
  ∀ s e s', m s = Some (Err e, s') → Q e.

(** an error made by [fmt.Errorf] with one of the given prefixes *)
Definition wrappedBy (prefixes : list string) (e : error) : Prop :=
  ∃ prefix err, e = wrapError prefix err ∧ prefix ∈ prefixes.

Definition sshPrefixes : list string :=
  ["failed to create ssh directory: "; "failed to copy ssh key: "].

Definition readPrefixes : list string :=
  ["failed to open config repo: "; "failed to get head: ";
   "failed to get tree: "; "failed to get config file: ";
   "failed to get config contents: "; "failed to unmarshal config: "].

Definition importPrefixes : list string :=
  ["failed to read repos directory: "; "failed to create repos directory: ";
   "failed to copy repo: "].

Definition fatalPrefixes : list string :=
  "failed to create sqlite backend: "
  :: sshPrefixes ++ readPrefixes ++ importPrefixes.

(** [keepsState m]: [m] returns, and returns the state it was given. *)
Definition keepsState {S A} (m : M S A) : Prop :=
  ∀ s, ∃ r, m s = Some (r, s).

(** [returns m]: [m] returns, a value or an error, from every state: it
    does not run out of fuel. *)
Definition returns {S A} (m : M S A) : Prop :=
  ∀ s, ∃ r s', m s = Some (r, s').

(** ** The calls of a phase *)

(** the calls of one turn of "Set repos metadata & collabs" *)
Definition repoCalls {PK} (repo : RepoConfig.t) : list (call PK) :=
  [SetProjectName (RepoConfig.Repo repo) (RepoConfig.Name repo);
   SetDescription (RepoConfig.Repo repo) (RepoConfig.Note repo);
   SetPrivate (RepoConfig.Repo repo) (RepoConfig.Private repo)]
  ++ map (AddCollaborator (RepoConfig.Repo repo)) (RepoConfig.Collabs repo).

(** a call of [config.WriteConfig] *)
Definition isWriteConfig {PK} (c : call PK) : bool :=
  match c with
  | WriteConfig _ _ => true
  | _ => false
  end.

(** a call of [sqlite.NewSqliteBackend] *)
Definition isNewSqliteBackend {PK} (c : call PK) : bool :=
  match c with
  | NewSqliteBackend _ => true
  | _ => false
  end.

(** the names given to the [CreateUser] calls *)
Definition createdUsers {PK} (cs : list (call PK)) : list string :=
  omap (λ c, match c with CreateUser name _ => Some name | _ => None end) cs.

(** the collaborations given to the [AddCollaborator] calls *)
Definition addedCollabs {PK} (cs : list (call PK)) : list (string * string) :=
  omap (λ c, match c with
             | AddCollaborator repo user => Some (repo, user)
             | _ => None
             end) cs.

Section Written.
Context {P : Platform}.

(** The configuration that a run hands to the writer: the default one,
    with the listen address and the host key path of the environment when
    they are set, and the name and the public URL of the legacy
    configuration. *)
Definition targetConfig (w : World) (ocfg : Config.t) : config.Config :=
  let keyPath := os_Getenv "SOFT_SERVE_KEY_PATH" w in
  let bindAddr := os_Getenv "SOFT_SERVE_BIND_ADDRESS" w in
  let cfg := config_DefaultConfig w in
  let cfg := if decide (bindAddr ≠ EmptyString)
             then config.with_ListenAddr cfg bindAddr else cfg in
  let cfg := if decide (keyPath ≠ EmptyString)
             then config.with_KeyPath cfg
                    (filepath_Join [config.DataPath cfg; "ssh";
                                    filepath_Base keyPath])
             else cfg in
  config.with_PublicURL (config.with_Name cfg (Config.Name ocfg))
    (Sprintf "ssh://%s:%d"
       [AStr (Config.Host ocfg); AInt (Config.Port ocfg)]).

(** the key strings of a list, parsed, with the canonical form [ak] *)
Definition parsedAs (ak : string) (keys : list string) : list PublicKey :=
  omap (λ key, match backend_ParseAuthorizedKey key with
               | Ok pk => if decide (backend_MarshalAuthorizedKey pk = ak)
                          then Some pk else None
               | Err _ => None
               end) keys.
End Written.

(** ** The run before the legacy configuration is read *)

Section Prologue.
Context {P : Platform}.

(** The part of [RunE] in front of the reader: the backend is made with
    the default configuration, the listen address is set, and the host key
    is copied.  It returns the configuration that is handed on. *)
Definition prologue : M state config.Config :=
  let* keyPath := read (os_Getenv "SOFT_SERVE_KEY_PATH") in
  let* bindAddr := read (os_Getenv "SOFT_SERVE_BIND_ADDRESS") in
  let* cfg := read config_DefaultConfig in
  let* _ := orWrap "failed to create sqlite backend: "
              (backend (NewSqliteBackend cfg)) in
  let* _ := emit (LogInfo "Setting SSH listen address..." []) in
  let cfg := if decide (bindAddr ≠ EmptyString)
             then config.with_ListenAddr cfg bindAddr else cfg in
  let* _ := emit (LogInfo "Copying SSH host key..." []) in
  let* cfg := copySSHHostKey keyPath cfg in
  let* _ := emit (LogInfo "Reading config repository..." []) in
  ret cfg.

(** The part of [RunE] behind the reader: the migration, and the writer
    between the line "Writing config..." and the deferred "Done!". *)
Definition epilogue (fuel : nat) (reposPath : string) (cfg : config.Config)
    (ocfg : Config.t) : M state unit :=
  let* cfg := migrate fuel reposPath cfg ocfg in
  let* _ := emit (LogInfo "Writing config..." []) in
  defer (record (LogInfo "Done!" []))
    (backend (WriteConfig
                (filepath_Join [config.DataPath cfg; "config.yaml"]) cfg)).
End Prologue.

(** ** Two legacy installations *)

Module Example.

(** the document behind [config.yaml] *)
Definition yamlDoc : Config.t :=
  Config.mk "Legacy" "example.com" 2222 "read-only" true
    [User.mk "Jane Doe" true
       ["ssh-ed25519 AAAA jane@laptop"; "ssh-ed25519   AAAA jane@work";
        "not a key"]
       ["a"; "b"];
     User.mk "jane doe" false ["not a key either"] ["b"]]
    [RepoConfig.mk "Project A" "a" "the first repository" false "README.md"
       ["jane-doe"]].

(** the document behind [config.json] *)
Definition jsonDoc : Config.t :=
  Config.mk "From JSON" "json.example.com" 22 "no-such-level" false [] [].

Definition platform : Platform := mock yamlDoc jsonDoc.

Definition dir : Mock.node := Mock.Dir 493.
Definition file : Mock.node := Mock.Regular 420 [].

Definition tree : list (string * list byte) :=
  [("config.yaml", [x79]); ("config.json", [x7b])].

(** A legacy storage root with the repositories [a], [b] and [config]. *)
Definition legacy : Mock.world :=
  Mock.mkWorld [("SOFT_SERVE_REPO_PATH", "repos")]
    [("repos", dir);
     ("repos/a", dir); ("repos/a/HEAD", file); ("repos/a/objects", dir);
     ("repos/b", dir); ("repos/b/HEAD", file); ("repos/b/objects", dir);
     ("repos/b/objects/pack", dir); ("repos/b/objects/pack/p1", file);
     ("repos/config", dir); ("repos/config/HEAD", file);
     ("repos/config/objects", dir);
     ("repos/notes.txt", file)]
    tree [] [] [].


(** [legacy], with a directory in the place where the copy of [b] wants
    to write the file [HEAD]. *)
Definition obstructed : Mock.world :=
  Mock.withFiles legacy
    (Mock.files legacy
     ++ [("data", dir); ("data/repos", dir); ("data/repos/b.git", dir);
         ("data/repos/b.git/HEAD", dir)]).

(** a backend that already knows the user [jane-doe] and the repository
    [b] *)
Definition populated : Mock.world :=
  Mock.mkWorld [] [] tree ["jane-doe"] ["b"] [].

Definition jane : User.t :=
  User.mk "Jane Doe" true
    ["ssh-ed25519 AAAA jane@laptop"; "ssh-ed25519   AAAA jane@work";
     "not a key"]
    ["a"; "b"].

Definition janeAgain : User.t :=
  User.mk "jane doe" false ["not a key either"] ["b"].

Definition start (w : Mock.world) : @state platform := @mkState platform w [].

(** entries that report a failure *)
Definition isFailure (ev : event Mock.key) : bool :=
  match ev with
  | LogError _ _ | Stderr _ _ | Println _ => true
  | _ => false
  end.

(** what a run returns, the calls it has issued and the failures it has
    reported *)
Definition summary (o : option (result unit * @state platform))
  : option (result unit * list (call Mock.key) * list (event Mock.key)) :=
  match o with
  | Some (r, s) =>
      Some (r, calls (PK := Mock.key) (@trace platform s),
            List.filter isFailure (@trace platform s))
  | None => None
  end.


(** [legacy] without its [config] repository. *)
Definition unconfigured : Mock.world :=
Mock.mkWorld [("SOFT_SERVE_REPO_PATH", "repos")]
  [("repos", dir);
   ("repos/a", dir); ("repos/a/HEAD", file); ("repos/a/objects", dir)]
  tree [] [] [].

(** an installation with a host key and a bind address, no storage root
  and a JSON configuration; the public half of the key is missing *)
Definition keyed : Mock.world :=
Mock.mkWorld
  [("SOFT_SERVE_KEY_PATH", "keys/host_ed25519");
   ("SOFT_SERVE_BIND_ADDRESS", ":2222")]
  [("keys", dir); ("keys/host_ed25519", Mock.Regular 384 [x6b]);
   ("config", dir)]
  [("config.json", [x7b])] [] [] [].

(** [jane] with her key strings in another order *)
Definition janeShuffled : User.t :=
User.mk "Jane Doe" true
  ["not a key"; "ssh-ed25519   AAAA jane@work";
   "ssh-ed25519 AAAA jane@laptop"]
  ["a"; "b"].

End Example.

(** * Properties *)

(** ** Reasoning in the monad *)

Section MonadFacts.
Context {S : Type}.

Lemma bind_inv {A B} (m : M S A) (f : A → M S B) s r s' :
  bind m f s = Some (r, s') →
  (∃ a s1, m s = Some (Ok a, s1) ∧ f a s1 = Some (r, s')) ∨
  (∃ e, m s = Some (Err e, s') ∧ r = Err e).
Proof.
  unfold bind. destruct (m s) as [[[a|e] s1]|]; intros H; try done.
  - left. eauto.
  - right. inversion H; subst. eauto.
Qed.

Lemma bind_Ok {A B} (m : M S A) (f : A → M S B) s a s1 :
  m s = Some (Ok a, s1) → bind m f s = f a s1.
Proof. unfold bind. by intros ->. Qed.

Lemma bind_Err {A B} (m : M S A) (f : A → M S B) s e s1 :
  m s = Some (Err e, s1) → bind m f s = Some (Err e, s1).
Proof. unfold bind. by intros ->. Qed.

Lemma onErr_Ok {A} (m : M S A) h s a s1 :
  m s = Some (Ok a, s1) → onErr m h s = Some (Ok tt, s1).
Proof. unfold onErr, bind, attempt. by intros ->. Qed.

Lemma onErr_Err {A} (m : M S A) h s e s1 :
  m s = Some (Err e, s1) → onErr m h s = h e s1.
Proof. unfold onErr, bind, attempt. by intros ->. Qed.

Lemma orWrap_Ok {A} prefix (m : M S A) s a s1 :
  m s = Some (Ok a, s1) → orWrap prefix m s = Some (Ok a, s1).
Proof. unfold orWrap. by intros ->. Qed.

Lemma orWrap_Err {A} prefix (m : M S A) s e s1 :
  m s = Some (Err e, s1) →
  orWrap prefix m s = Some (Err (wrapError prefix e), s1).
Proof. unfold orWrap. by intros ->. Qed.

(** A loop whose body never returns an error, and never runs out of fuel,
    runs to its end. *)
Lemma forM__total {A} (l : list A) (body : A → M S unit) :
  (∀ x s, x ∈ l → ∃ s', body x s = Some (Ok tt, s')) →
  ∀ s, ∃ s', forM_ l body s = Some (Ok tt, s').
Proof.
  induction l as [|x l IH]; intros Hbody s; simpl.
  - by eexists.
  - destruct (Hbody x s (list_elem_of_here x l)) as [s1 H1].
    rewrite (bind_Ok _ _ _ _ _ H1).
    apply IH. intros y s2 Hy. apply Hbody. by right.
Qed.

(** A loop whose body never returns an error does not return one. *)
Lemma forM__no_error {A} (l : list A) (body : A → M S unit) :
  (∀ x s e s', x ∈ l → body x s ≠ Some (Err e, s')) →
  ∀ s e s', forM_ l body s ≠ Some (Err e, s').
Proof.
  induction l as [|x l IH]; intros Hbody s e s' H; simpl in H.
  - discriminate.
  - apply bind_inv in H as [(a & s1 & _ & H)|(e' & H & _)].
    + eapply IH; [|exact H]. intros y s2 e2 s2' Hy. apply Hbody. by right.
    + eapply Hbody; [|exact H]. left.
Qed.

Lemma onErr_no_error {A} (m : M S A) h s e s' :
  (∀ e1 s1 e2 s2, h e1 s1 ≠ Some (Err e2, s2)) →
  onErr m h s ≠ Some (Err e, s').
Proof.
  intros Hh. unfold onErr, bind, attempt.
  destruct (m s) as [[[a|e1] s1]|]; first [done | apply Hh].
Qed.

End MonadFacts.

(** ** Package strings and fmt *)

Lemma replaceFrom_space (s : string) :
  replaceFrom " " "-" 0 s = string_map hyphenate s.
Proof.
  induction s as [|c s IH]; [done|].
  cbn [replaceFrom string_map String.prefix String.length Nat.sub].
  unfold hyphenate at 1.
  destruct (Ascii.eqb_spec c " ") as [->|Hc].
  - destruct (ascii_dec " " " ") as [_|Hn]; [|congruence].
    replace (String.prefix "" s) with true by (by destruct s).
    cbn. by rewrite IH.
  - destruct (ascii_dec " " c) as [Heq|_]; [congruence|]. by rewrite IH.
Qed.

Lemma ReplaceAll_space (s : string) :
  strings_ReplaceAll s " " "-" = string_map hyphenate s.
Proof.
  unfold strings_ReplaceAll.
  destruct (decide (" " = "-")) as [?|_]; [done|].
  destruct (decide (" " = "")) as [?|_]; [done|].
  apply replaceFrom_space.
Qed.

Lemma toLowerByte_not_upper (c : ascii) :
  isUpperByte c = false → toLowerByte c = c.
Proof. unfold toLowerByte. by intros ->. Qed.

Lemma string_map_toLowerByte_id (s : string) :
  string_existsb isUpperByte s = false → string_map toLowerByte s = s.
Proof.
  induction s as [|c s IH]; [done|]. simpl.
  intros [Hc Hs]%orb_false_iff.
  by rewrite toLowerByte_not_upper, IH.
Qed.

Lemma string_map_compose (f g : ascii → ascii) (s : string) :
  string_map f (string_map g s) = string_map (λ c, f (g c)) s.
Proof. induction s as [|c s IH]; [done|]. simpl. by rewrite IH. Qed.

Lemma append_empty_r (s : string) : s +:+ "" = s.
Proof.
  induction s as [|c s IH]; [done|].
  change (String c (s +:+ "") = String c s). by f_equal.
Qed.

Lemma Sprintf_ssh_url (host : string) (port : Z) :
  Sprintf "ssh://%s:%d" [AStr host; AInt port]
  = "ssh://" +:+ host +:+ ":" +:+ Itoa port.
Proof.
  cbn. rewrite append_empty_r. reflexivity.
Qed.

Section BackendFacts.
Context {P : Platform}.

Lemma calls_app (evs1 evs2 : list (event PublicKey)) :
  calls (evs1 ++ evs2) = calls evs1 ++ calls evs2.
Proof. unfold calls. apply omap_app. Qed.

Lemma calls_Called (c : call PublicKey) (evs : list (event PublicKey)) :
  calls (Called c :: evs) = c :: calls evs.
Proof. done. Qed.

Lemma calls_failureLog {A} (r : result A) (f : error → event PublicKey) :
  (∀ e c, f e ≠ Called c) → calls (failureLog r f) = [].
Proof.
  intros Hf. destruct r as [a|e]; [done|]. unfold calls. simpl.
  destruct (f e) eqn:E; try done. by destruct (Hf e c).
Qed.

Lemma backend_run (c : call PublicKey) (s : state) :
  backend c s =
  Some ((backend_do c (world s)).1,
        mkState (backend_do c (world s)).2 (trace s ++ [Called c])).
Proof.
  unfold backend, bind, emit, sys, record. simpl.
  by destruct (backend_do c (world s)).
Qed.

(** A backend call whose failure is only logged. *)
Lemma onErr_backend (c : call PublicKey) (f : error → event PublicKey)
    (s : state) :
  onErr (backend c) (λ err, emit (f err)) s =
  Some (Ok tt,
        mkState (backend_do c (world s)).2
          (trace s ++ Called c :: failureLog (backend_do c (world s)).1 f)).
Proof.
  unfold onErr, bind, attempt. rewrite backend_run.
  destruct (backend_do c (world s)) as [[[]|e] w]; simpl.
  - done.
  - unfold emit, record. simpl. by rewrite <- app_assoc.
Qed.

(** The loop over the collaborations of a user: it calls the backend once
    for every repository, in order, whatever the calls return. *)
Lemma userCollabs_run (username : string) (repos : list string) (s : state) :
  ∃ s' evs,
    forM_ repos (λ repo,
      onErr (backend (AddCollaborator repo username))
        (λ err, emit (LogError "failed to add user collab to %s: %s\n"
                        [AStr repo; AErr err]))) s = Some (Ok tt, s')
    ∧ trace s' = trace s ++ evs
    ∧ calls evs = map (λ repo, AddCollaborator repo username) repos.
Proof.
  revert s. induction repos as [|repo repos IH]; intros s.
  - exists s, []. by rewrite app_nil_r.
  - cbn [forM_]. erewrite bind_Ok; [|apply onErr_backend].
    edestruct IH as (s' & evs & -> & Htr & Hcalls).
    eexists _, _. split; [done|]. split.
    + rewrite Htr. cbn [trace]. rewrite <- app_assoc. done.
    + rewrite calls_app, Hcalls, calls_Called, calls_failureLog by done.
      done.
Qed.

(** One turn of the loop over the legacy users. *)
Lemma createUser_run (user : User.t) (s : state) :
  let username := usernameOf user in
  let c := CreateUser username
             (mkUserOptions (User.Admin user) (pubkeysOf user (world s))) in
  ∃ s' evs,
    createUser user s = Some (Ok tt, s')
    ∧ trace s' = trace s
        ++ LogInfo "Creating user %q" [AStr username] :: Called c
        :: failureLog (backend_do c (world s)).1
             (λ e, LogError "failed to create user: %s" [AErr e])
        ++ evs
    ∧ calls evs = map (λ repo, AddCollaborator repo username)
                    (User.CollabRepos user).
Proof.
  intros username c. unfold createUser.
  unfold read at 1. unfold bind at 1. cbn [world].
  unfold emit at 1. unfold bind at 1.
  erewrite bind_Ok; [|apply onErr_backend].
  edestruct userCollabs_run as (s' & evs & -> & Htr & Hcalls).
  exists s', evs. split; [done|]. split; [|exact Hcalls].
  rewrite Htr. cbn [trace world record].
  rewrite <- !app_assoc. done.
Qed.

(** The same turn, by the calls it issues. *)
Lemma createUser_calls (user : User.t) (s : state) :
  let username := usernameOf user in
  let c := CreateUser username
             (mkUserOptions (User.Admin user) (pubkeysOf user (world s))) in
  ∃ s' evs,
    createUser user s = Some (Ok tt, s')
    ∧ trace s' = trace s ++ evs
    ∧ (∃ rest, evs = LogInfo "Creating user %q" [AStr username]
                     :: Called c :: rest)
    ∧ (∀ e, (backend_do c (world s)).1 = Err e →
         LogError "failed to create user: %s" [AErr e] ∈ evs)
    ∧ calls evs = c :: map (λ repo, AddCollaborator repo username)
                         (User.CollabRepos user).
Proof.
  intros username c.
  destruct (createUser_run user s) as (s' & evs & Hrun & Htr & Hcalls).
  eexists s', _. split; [exact Hrun|]. split; [exact Htr|].
  split; [by eexists|]. split.
  - intros e He. unfold c, username in *. rewrite He.
    cbn [failureLog]. right. right. left.
  - change (calls (LogInfo ?f ?a :: ?l)) with (calls l).
    rewrite calls_Called, calls_app, calls_failureLog by done.
    by rewrite Hcalls.
Qed.

End BackendFacts.

(** ** The keys of a user *)

Section KeyFacts.
Context {P : Platform}.

Abbreviation parse := backend_ParseAuthorizedKey.
Abbreviation marshal := backend_MarshalAuthorizedKey.

(** An entry of the map comes from the map the loop started with, or from
    a key string that parses. *)
Lemma foldl_addKey_lookup (l : list string) (m : gmap string PublicKey) ak pk :
  foldl addKey m l !! ak = Some pk →
  m !! ak = Some pk ∨ ∃ raw, raw ∈ l ∧ parse raw = Ok pk ∧ marshal pk = ak.
Proof.
  revert m. induction l as [|raw l IH]; intros m H; [by left|].
  simpl in H. apply IH in H as [H|(raw' & Hin & Hp & Hm)].
  - unfold addKey in H. destruct (parse raw) as [pk0|e] eqn:Hraw; [|by left].
    destruct (decide (marshal pk0 = ak)) as [<-|Hne].
    + rewrite lookup_insert_eq in H. injection H as ->.
      right. exists raw. split; [left|done].
    + rewrite lookup_insert_ne in H by done. by left.
  - right. exists raw'. split; [by right|done].
Qed.

(** The loop never removes an entry. *)
Lemma foldl_addKey_mono (l : list string) (m : gmap string PublicKey) ak :
  is_Some (m !! ak) → is_Some (foldl addKey m l !! ak).
Proof.
  revert m. induction l as [|raw l IH]; intros m H; [done|].
  simpl. apply IH. unfold addKey. destruct (parse raw) as [pk0|e]; [|done].
  destruct (decide (marshal pk0 = ak)) as [<-|Hne].
  - rewrite lookup_insert_eq. by eexists.
  - by rewrite lookup_insert_ne.
Qed.

(** Every key string that parses leaves an entry under its canonical
    form. *)
Lemma foldl_addKey_parsed (l : list string) (m : gmap string PublicKey) raw pk :
  raw ∈ l → parse raw = Ok pk → is_Some (foldl addKey m l !! marshal pk).
Proof.
  revert m. induction l as [|raw' l IH]; intros m Hin Hp.
  - by apply not_elem_of_nil in Hin.
  - simpl. apply elem_of_cons in Hin as [<-|Hin]; [|by apply IH].
    apply foldl_addKey_mono. unfold addKey. rewrite Hp.
    rewrite lookup_insert_eq. by eexists.
Qed.

Lemma collectKeys_lookup (l : list string) ak pk :
  collectKeys l !! ak = Some pk →
  marshal pk = ak ∧ ∃ raw, raw ∈ l ∧ parse raw = Ok pk.
Proof.
  intros [H|(raw & Hin & Hp & Hm)]%foldl_addKey_lookup.
  - by rewrite lookup_empty in H.
  - split; [done|]. by exists raw.
Qed.

(** A key string that does not parse changes nothing. *)
Lemma collectKeys_filter (l : list string) :
  collectKeys l = collectKeys (filter (λ raw, is_Ok (parse raw) = true) l).
Proof.
  unfold collectKeys. generalize (∅ : gmap string PublicKey).
  induction l as [|raw l IH]; intros m; [done|].
  rewrite filter_cons. simpl. unfold addKey at 2.
  destruct (parse raw) as [pk|e] eqn:Hraw; simpl.
  - replace (addKey m raw) with (<[marshal pk:=pk]> m)
      by (unfold addKey; by rewrite Hraw).
    apply IH.
  - apply IH.
Qed.

(** The canonical forms of the values of the map are its keys. *)
Lemma collectKeys_forms (l : list string) :
  marshal <$> (map_to_list (collectKeys l)).*2
  = (map_to_list (collectKeys l)).*1.
Proof.
  assert (Forall (λ kv, marshal kv.2 = kv.1) (map_to_list (collectKeys l)))
    as Hall.
  { apply Forall_forall. intros [k v] Hkv%elem_of_map_to_list.
    by apply collectKeys_lookup in Hkv as [? _]. }
  induction (map_to_list (collectKeys l)) as [|[k v] kvs IH]; [done|].
  apply Forall_cons in Hall as [Hkv Hall]. rewrite !fmap_cons.
  f_equal; [exact Hkv|by apply IH].
Qed.

Lemma pubkeysOf_Permutation (user : User.t) (w : World) :
  pubkeysOf user w ≡ₚ (map_to_list (collectKeys (User.PublicKeys user))).*2.
Proof. unfold pubkeysOf. by rewrite maprange_perm. Qed.

Lemma pubkeysOf_NoDup (user : User.t) (w : World) :
  NoDup (marshal <$> pubkeysOf user w).
Proof.
  rewrite pubkeysOf_Permutation, collectKeys_forms.
  apply NoDup_fst_map_to_list.
Qed.

Lemma pubkeysOf_elem (user : User.t) (w : World) pk :
  pk ∈ pubkeysOf user w ↔
  collectKeys (User.PublicKeys user) !! marshal pk = Some pk.
Proof.
  rewrite pubkeysOf_Permutation. split.
  - intros ([k v] & -> & Hkv)%list_elem_of_fmap. simpl.
    apply elem_of_map_to_list in Hkv.
    by destruct (collectKeys_lookup _ _ _ Hkv) as [-> _].
  - intros H. apply list_elem_of_fmap. exists (marshal pk, pk).
    split; [done|]. by apply elem_of_map_to_list.
Qed.

Lemma pubkeysOf_forms (user : User.t) (w : World) ak :
  ak ∈ marshal <$> pubkeysOf user w ↔
  ∃ raw pk, raw ∈ User.PublicKeys user ∧ parse raw = Ok pk ∧ marshal pk = ak.
Proof.
  split.
  - intros (pk & -> & Hpk)%list_elem_of_fmap.
    apply pubkeysOf_elem, collectKeys_lookup in Hpk as [_ (raw & ? & ?)].
    by exists raw, pk.
  - intros (raw & pk & Hin & Hp & <-).
    destruct (foldl_addKey_parsed _ ∅ _ _ Hin Hp) as [pk' Hpk'].
    pose proof (collectKeys_lookup _ _ _ Hpk') as [Hm _].
    apply list_elem_of_fmap. exists pk'. split; [done|].
    apply pubkeysOf_elem. by rewrite Hm.
Qed.

(** In a list without two elements of the same image, the elements of a
    given image are one. *)
Lemma NoDup_fmap_filter_length {A B} `{EqDecision B} (f : A → B)
    (l : list A) (x : A) :
  NoDup (f <$> l) → x ∈ l →
  length (filter (λ y, f y = f x) l) = 1%nat.
Proof.
  induction l as [|y l IH]; intros Hnd Hx.
  - by apply not_elem_of_nil in Hx.
  - rewrite fmap_cons in Hnd. apply NoDup_cons in Hnd as [Hy Hnd].
    rewrite filter_cons. destruct (decide (f y = f x)) as [Heq|Hne].
    + simpl. f_equal.
      destruct (filter (λ y, f y = f x) l) as [|z zs] eqn:Hf; [done|].
      assert (z ∈ filter (λ y, f y = f x) l) as [Hfz Hz]%list_elem_of_filter
        by (rewrite Hf; left).
      destruct Hy. rewrite Heq, <- Hfz. apply list_elem_of_fmap. eauto.
    + apply elem_of_cons in Hx as [->|Hx]; [done|]. by apply IH.
Qed.

End KeyFacts.

(** ** The legacy users *)

Section Users.
Context {P : Platform}.

(** C3. The [CreateUser] call of a legacy user is given the list
    [pubkeysOf], and that list has exactly one entry for every canonical
    marshaled form among the key strings that parse: no two entries share
    a form, the forms are those of the parsed key strings, and the key
    strings of one form, however many, leave one entry. *)
Theorem pubkeys_one_per_canonical_form (user : User.t) (s : state) :
  let pubkeys := pubkeysOf user (world s) in
  let forms := backend_MarshalAuthorizedKey <$> pubkeys in
  (∃ s' evs,
     createUser user s = Some (Ok tt, s') ∧ trace s' = trace s ++ evs
     ∧ calls evs =
         CreateUser (usernameOf user) (mkUserOptions (User.Admin user) pubkeys)
         :: map (λ repo, AddCollaborator repo (usernameOf user))
              (User.CollabRepos user))
  ∧ NoDup forms
  ∧ (∀ ak, ak ∈ forms ↔
       ∃ raw pk, raw ∈ User.PublicKeys user
                 ∧ backend_ParseAuthorizedKey raw = Ok pk
                 ∧ backend_MarshalAuthorizedKey pk = ak)
  ∧ (∀ raw pk, raw ∈ User.PublicKeys user →
       backend_ParseAuthorizedKey raw = Ok pk →
       length (filter (λ pk', backend_MarshalAuthorizedKey pk'
                             = backend_MarshalAuthorizedKey pk) pubkeys)
       = 1%nat).
Proof.
  intros pubkeys forms. split; [|split; [|split]].
  - destruct (createUser_calls user s) as (s' & evs & Hrun & Htr & _ & _ & Hcalls).
    exists s', evs. split; [exact Hrun|]. split; [exact Htr|].
    exact Hcalls.
  - apply pubkeysOf_NoDup.
  - apply pubkeysOf_forms.
  - intros raw pk Hin Hp.
    assert (backend_MarshalAuthorizedKey pk ∈ forms) as Hform
      by (apply pubkeysOf_forms; eauto).
    apply list_elem_of_fmap in Hform as (pk' & -> & Hpk').
    apply NoDup_fmap_filter_length; [apply pubkeysOf_NoDup|done].
Qed.

(** C4. A key string of a legacy user that does not parse is skipped: it
    leaves nothing in the key map, nothing in the trace, and no error.  The
    turn of the user still issues its [CreateUser] call, right after the
    line that announces it, with the keys that did parse; when no key
    string parses the list of keys is empty. *)
Theorem unparsed_keys_skipped (user : User.t) (s : state) :
  let pubkeys := pubkeysOf user (world s) in
  (∃ s' rest,
     createUser user s = Some (Ok tt, s')
     ∧ trace s' = trace s
         ++ LogInfo "Creating user %q" [AStr (usernameOf user)]
         :: Called (CreateUser (usernameOf user)
                      (mkUserOptions (User.Admin user) pubkeys))
         :: rest)
  ∧ collectKeys (User.PublicKeys user)
    = collectKeys (filter (λ raw, is_Ok (backend_ParseAuthorizedKey raw) = true)
                     (User.PublicKeys user))
  ∧ (∀ pk, pk ∈ pubkeys →
       ∃ raw, raw ∈ User.PublicKeys user
              ∧ backend_ParseAuthorizedKey raw = Ok pk)
  ∧ ((∀ raw, raw ∈ User.PublicKeys user →
         is_Ok (backend_ParseAuthorizedKey raw) = false) →
     pubkeys = []).
Proof.
  intros pubkeys. split; [|split; [|split]].
  - destruct (createUser_calls user s)
      as (s' & evs & Hrun & Htr & [rest ->] & _ & _).
    by exists s', rest.
  - apply collectKeys_filter.
  - intros pk Hpk. apply pubkeysOf_elem in Hpk.
    by apply collectKeys_lookup in Hpk as [_ ?].
  - intros Hnone. destruct pubkeys as [|pk pks] eqn:Hpks; [done|].
    assert (pk ∈ pubkeysOf user (world s)) as Hpk
      by (fold pubkeys; rewrite Hpks; left).
    apply pubkeysOf_elem, collectKeys_lookup in Hpk as [_ (raw & Hin & Hp)].
    specialize (Hnone raw Hin). by rewrite Hp in Hnone.
Qed.

Lemma strings_ToLower_ASCII (name : string) :
  string_forallb isASCIIByte name = true →
  strings_ToLower name = string_map toLowerByte name.
Proof.
  intros Hascii. unfold strings_ToLower. rewrite Hascii.
  destruct (string_existsb isUpperByte name) eqn:Hup; [done|].
  simpl. by rewrite string_map_toLowerByte_id.
Qed.

(** C5. The name given to the [CreateUser] call of a legacy user is the
    legacy name put in lower case by [strings.ToLower], with every blank
    replaced by a hyphen.  On an ASCII name this is byte by byte: a letter
    [A]..[Z] becomes [a]..[z], a blank becomes a hyphen, any other byte
    stays; so [Jane Doe] becomes [jane-doe]. *)
Theorem username_lowercase_hyphens (user : User.t) (s : state) :
  (∃ s' evs opts,
     createUser user s = Some (Ok tt, s') ∧ trace s' = trace s ++ evs
     ∧ calls evs =
         CreateUser (usernameOf user) opts
         :: map (λ repo, AddCollaborator repo (usernameOf user))
              (User.CollabRepos user))
  ∧ usernameOf user
    = string_map hyphenate (strings_ToLower (User.Name user))
  ∧ (string_forallb isASCIIByte (User.Name user) = true →
     usernameOf user
     = string_map (λ c, hyphenate (toLowerByte c)) (User.Name user))
  ∧ (User.Name user = "Jane Doe" → usernameOf user = "jane-doe").
Proof.
  split; [|split; [|split]].
  - destruct (createUser_calls user s)
      as (s' & evs & Hrun & Htr & _ & _ & Hcalls).
    by eexists s', evs, _.
  - unfold usernameOf. apply ReplaceAll_space.
  - intros Hascii. unfold usernameOf.
    by rewrite ReplaceAll_space, strings_ToLower_ASCII, string_map_compose.
  - intros Hname. unfold usernameOf.
    rewrite ReplaceAll_space, strings_ToLower_ASCII by (by rewrite Hname).
    by rewrite Hname.
Qed.

(** C2, as the code has it.  When the [CreateUser] call of a legacy user
    fails, the failure is logged, and the turn goes on as it does after a
    success: it issues one [AddCollaborator] call for every repository the
    user declares, in order. *)
Theorem collabs_added_after_failed_creation (user : User.t) (s : state)
    (e : error) :
  (backend_do
     (CreateUser (usernameOf user)
        (mkUserOptions (User.Admin user) (pubkeysOf user (world s))))
     (world s)).1 = Err e →
  ∃ s' evs,
    createUser user s = Some (Ok tt, s') ∧ trace s' = trace s ++ evs
    ∧ LogError "failed to create user: %s" [AErr e] ∈ evs
    ∧ calls evs =
        CreateUser (usernameOf user)
          (mkUserOptions (User.Admin user) (pubkeysOf user (world s)))
        :: map (λ repo, AddCollaborator repo (usernameOf user))
             (User.CollabRepos user).
Proof.
  intros Hfail.
  destruct (createUser_calls user s)
    as (s' & evs & Hrun & Htr & _ & Hlog & Hcalls).
  exists s', evs. eauto.
Qed.

End Users.

(** ** The git directory detector and the legacy config reader *)

Section Readers.
Context {P : Platform}.

(** C7. [isGitDir path] is true exactly when [os.Stat] finds [objects]
    under [path] and it is a directory, and finds [HEAD] under [path] and
    it is not a directory.  Two worlds in which these two calls return the
    same give the same answer: nothing else is looked at. *)
Theorem isGitDir_objects_and_HEAD (path : string) (w : World) :
  (isGitDir path w = true ↔
     (∃ st, os_Stat (filepath_Join [path; "objects"]) w = Ok st
            ∧ fi_IsDir st = true)
     ∧ (∃ st, os_Stat (filepath_Join [path; "HEAD"]) w = Ok st
              ∧ fi_IsDir st = false))
  ∧ (∀ w' : World,
       os_Stat (filepath_Join [path; "objects"]) w'
       = os_Stat (filepath_Join [path; "objects"]) w →
       os_Stat (filepath_Join [path; "HEAD"]) w'
       = os_Stat (filepath_Join [path; "HEAD"]) w →
       isGitDir path w' = isGitDir path w).
Proof.
  split.
  - unfold isGitDir. split.
    + destruct (os_Stat (filepath_Join [path; "objects"]) w) as [st1|e1];
        [|done].
      destruct (fi_IsDir st1) eqn:Hdir1; [|done]. simpl.
      destruct (os_Stat (filepath_Join [path; "HEAD"]) w) as [st2|e2];
        [|done].
      destruct (fi_IsDir st2) eqn:Hdir2; [done|]. intros _.
      split; eexists; eauto.
    + intros [(st1 & -> & ->) (st2 & -> & ->)]. done.
  - intros w' Hobjects Hhead. unfold isGitDir.
    by rewrite Hobjects, Hhead.
Qed.

Lemma peek_run {A} (op : World → result A) (s : state) :
  peek op s = Some (op (world s), s).
Proof. done. Qed.

(** C6. The reader asks the root tree for [config.yaml] first.  When that
    entry is there it is the one taken, whether or not [config.json] is
    there too, and its contents go to the YAML decoder; [config.json] is
    taken, for the JSON decoder, only when [config.yaml] is missing; and
    the lookup fails, with "failed to get config file", exactly when both
    are missing. *)
Theorem configEntry_yaml_first (tree : GitTree) (s : state) :
  let yaml := git_TreeEntry tree "config.yaml" (world s) in
  let json := git_TreeEntry tree "config.json" (world s) in
  (∀ te, yaml = Ok te → configEntry tree s = Some (Ok (te, false), s))
  ∧ (∀ e te, yaml = Err e → json = Ok te →
       configEntry tree s = Some (Ok (te, true), s))
  ∧ (∀ e1 e2, yaml = Err e1 → json = Err e2 →
       configEntry tree s
       = Some (Err (wrapError "failed to get config file: " e2), s))
  ∧ ((∃ e s', configEntry tree s = Some (Err e, s')) ↔
       is_Ok yaml = false ∧ is_Ok json = false)
  ∧ (∀ reposPath r head te cc,
       git_Open (filepath_Join [reposPath; "config"]) (world s) = Ok r →
       git_HEAD r (world s) = Ok head →
       git_TreePath r head "" (world s) = Ok tree →
       yaml = Ok te →
       git_Contents te (world s) = Ok cc →
       readConfig reposPath s
       = Some (match yaml_Unmarshal cc with
               | Ok ocfg => Ok ocfg
               | Err e => Err (wrapError "failed to unmarshal config: " e)
               end, s))
  ∧ (∀ reposPath r head e te cc,
       git_Open (filepath_Join [reposPath; "config"]) (world s) = Ok r →
       git_HEAD r (world s) = Ok head →
       git_TreePath r head "" (world s) = Ok tree →
       yaml = Err e → json = Ok te →
       git_Contents te (world s) = Ok cc →
       readConfig reposPath s
       = Some (match json_Unmarshal cc with
               | Ok ocfg => Ok ocfg
               | Err e => Err (wrapError "failed to unmarshal config: " e)
               end, s)).
Proof.
  intros yaml json.
  assert (∀ te, yaml = Ok te → configEntry tree s = Some (Ok (te, false), s))
    as Hyaml.
  { intros te H. unfold configEntry, bind, attempt. rewrite peek_run.
    fold yaml. by rewrite H. }
  assert (∀ e te, yaml = Err e → json = Ok te →
            configEntry tree s = Some (Ok (te, true), s)) as Hjson.
  { intros e te H1 H2. unfold configEntry, bind, attempt, orWrap, peek.
    fold yaml. rewrite H1. fold json. by rewrite H2. }
  assert (∀ e1 e2, yaml = Err e1 → json = Err e2 →
            configEntry tree s
            = Some (Err (wrapError "failed to get config file: " e2), s))
    as Hnone.
  { intros e1 e2 H1 H2. unfold configEntry, bind, attempt, orWrap, peek.
    fold yaml. rewrite H1. fold json. by rewrite H2. }
  split; [exact Hyaml|]. split; [exact Hjson|]. split; [exact Hnone|].
  split; [|split].
  - split.
    + intros (e & s' & H).
      destruct yaml as [te|e1] eqn:Hy.
      { by rewrite (Hyaml te) in H. }
      destruct json as [te|e2] eqn:Hj.
      { by rewrite (Hjson e1 te) in H. }
      done.
    + intros [Hy Hj].
      destruct yaml as [te|e1] eqn:Hy'; [done|].
      destruct json as [te|e2] eqn:Hj'; [done|].
      eexists _, _. by apply (Hnone e1 e2).
  - intros reposPath r head te cc Hopen Hhead Htree Hy Hcc.
    unfold readConfig.
    erewrite bind_Ok; [|by apply orWrap_Ok; rewrite peek_run, Hopen].
    erewrite bind_Ok; [|by apply orWrap_Ok; rewrite peek_run, Hhead].
    erewrite bind_Ok; [|by apply orWrap_Ok; rewrite peek_run, Htree].
    erewrite bind_Ok; [|by apply Hyaml]. cbv beta iota.
    erewrite bind_Ok; [|by apply orWrap_Ok; rewrite peek_run, Hcc].
    unfold orWrap. rewrite peek_run. by destruct (yaml_Unmarshal cc).
  - intros reposPath r head e te cc Hopen Hhead Htree Hy Hj Hcc.
    unfold readConfig.
    erewrite bind_Ok; [|by apply orWrap_Ok; rewrite peek_run, Hopen].
    erewrite bind_Ok; [|by apply orWrap_Ok; rewrite peek_run, Hhead].
    erewrite bind_Ok; [|by apply orWrap_Ok; rewrite peek_run, Htree].
    erewrite bind_Ok; [|by eapply Hjson]. cbv beta iota.
    erewrite bind_Ok; [|by apply orWrap_Ok; rewrite peek_run, Hcc].
    unfold orWrap. rewrite peek_run. by destruct (json_Unmarshal cc).
Qed.

End Readers.

(** ** What a phase may add to the trace *)

Section Emits.
Context {P : Platform}.

Variable Q : event PublicKey → Prop.

Lemma emits_ret {A} (a : A) : emits Q (ret a).
Proof.
  intros s r s' [= <- <-]. exists []. by rewrite app_nil_r.
Qed.

Lemma emits_bind {A B} (m : M state A) (f : A → M state B) :
  emits Q m → (∀ a, emits Q (f a)) → emits Q (bind m f).
Proof.
  intros Hm Hf s r s' [(a & s1 & H1 & H2)|(e & H1 & _)]%bind_inv.
  - apply Hm in H1 as (evs1 & Htr1 & HQ1).
    apply Hf in H2 as (evs2 & Htr2 & HQ2).
    exists (evs1 ++ evs2). split.
    + by rewrite Htr2, Htr1, app_assoc.
    + by apply Forall_app.
  - by apply Hm in H1.
Qed.

Lemma emits_emit (ev : event PublicKey) : Q ev → emits Q (emit ev).
Proof.
  intros Hev s r s' [= <- <-]. exists [ev]. split; [done|].
  by apply Forall_singleton.
Qed.

Lemma emits_sys {A} (op : World → result A * World) : emits Q (sys op).
Proof.
  intros s r s'. unfold sys. destruct (op (world s)) as [r1 w].
  intros [= <- <-]. exists []. by rewrite app_nil_r.
Qed.

Lemma emits_peek {A} (op : World → result A) : emits Q (peek op).
Proof.
  intros s r s' [= <- <-]. exists []. by rewrite app_nil_r.
Qed.

Lemma emits_read {A} (op : World → A) : emits Q (read op).
Proof.
  intros s r s' [= <- <-]. exists []. by rewrite app_nil_r.
Qed.

Lemma emits_backend (c : call PublicKey) :
  Q (Called c) → emits Q (backend c).
Proof.
  intros Hc. apply emits_bind; [by apply emits_emit|].
  intros _. apply emits_sys.
Qed.

Lemma emits_attempt {A} (m : M state A) : emits Q m → emits Q (attempt m).
Proof.
  intros Hm s r s' H. unfold attempt in H.
  destruct (m s) as [[r1 s1]|] eqn:Hms; [|done].
  injection H as <- <-. by eapply Hm.
Qed.

Lemma emits_onErr {A} (m : M state A) (h : error → M state unit) :
  emits Q m → (∀ e, emits Q (h e)) → emits Q (onErr m h).
Proof.
  intros Hm Hh. apply emits_bind; [by apply emits_attempt|].
  intros [a|e]; [apply emits_ret|apply Hh].
Qed.

Lemma emits_orWrap {A} prefix (m : M state A) :
  emits Q m → emits Q (orWrap prefix m).
Proof.
  intros Hm s r s' H. unfold orWrap in H.
  destruct (m s) as [[[a|e] s1]|] eqn:Hms; [| |done];
    injection H as <- <-; by eapply Hm.
Qed.

Lemma emits_defer_close {A} (f : File) (m : M state A) :
  emits Q m → emits Q (defer (close f) m).
Proof.
  intros Hm s r s' H. unfold defer in H.
  destruct (m s) as [[r1 s1]|] eqn:Hms; [|done].
  injection H as <- <-. apply Hm in Hms as (evs & Htr & HQ).
  exists evs. split; [exact Htr|done].
Qed.

Lemma emits_defer_record {A} (ev : event PublicKey) (m : M state A) :
  Q ev → emits Q m → emits Q (defer (record ev) m).
Proof.
  intros Hev Hm s r s' H. unfold defer in H.
  destruct (m s) as [[r1 s1]|] eqn:Hms; [|done].
  injection H as <- <-. apply Hm in Hms as (evs & Htr & HQ).
  exists (evs ++ [ev]). split.
  - cbn [record trace]. by rewrite Htr, app_assoc.
  - apply Forall_app. split; [done|]. by apply Forall_singleton.
Qed.

Lemma emits_forM_ {A} (l : list A) (body : A → M state unit) :
  (∀ x, emits Q (body x)) → emits Q (forM_ l body).
Proof.
  intros Hbody. induction l as [|x l IH]; simpl.
  - apply emits_ret.
  - apply emits_bind; [apply Hbody|]. by intros _.
Qed.

Lemma emits_copyFile (src dst : string) : emits Q (copyFile src dst).
Proof.
  unfold copyFile. apply emits_bind; [apply emits_sys|]. intros srcfd.
  apply emits_defer_close, emits_bind; [apply emits_sys|]. intros dstfd.
  apply emits_defer_close, emits_bind; [apply emits_sys|]. intros _.
  apply emits_bind; [apply emits_peek|]. intros srcinfo. apply emits_sys.
Qed.

Lemma emits_copyDir (fuel : nat) (src dst : string) :
  (∀ e, Q (Println e)) → emits Q (copyDir fuel src dst).
Proof.
  intros HQ. revert src dst.
  induction fuel as [|fuel IH]; intros src dst; [by intros s r s' ?|].
  cbn [copyDir].
  apply emits_bind; [apply emits_peek|]. intros srcinfo.
  apply emits_bind; [apply emits_sys|]. intros _.
  apply emits_bind; [apply emits_peek|]. intros fds.
  apply emits_bind; [|intros _; apply emits_ret].
  apply emits_forM_. intros fd. unfold copyEntry.
  destruct (de_IsDir fd); apply emits_onErr;
    first [apply IH | apply emits_copyFile
          | intros e; by apply emits_emit].
Qed.

End Emits.


(** ** The calls of the migration *)

Section Migration.
Context {P : Platform}.

Lemma Forall_onCalls (Qc : call PublicKey → Prop)
    (evs : list (event PublicKey)) :
  Forall (onCalls Qc) evs → ∀ c, c ∈ calls evs → Qc c.
Proof.
  intros Hall c Hc. unfold calls in Hc.
  apply list_elem_of_omap in Hc as (ev & Hev & Hsome).
  rewrite Forall_forall in Hall. specialize (Hall ev Hev).
  destruct ev; try done. by injection Hsome as <-.
Qed.

Ltac emits_step :=
  first [ apply emits_backend; cbn [onCalls]; solve [auto]
        | apply emits_onErr; [|intros ?]
        | apply emits_orWrap
        | apply emits_forM_; intros ?
        | apply emits_copyFile
        | apply emits_copyDir; intros ?; exact I
        | apply emits_emit; exact I
        | apply emits_ret | apply emits_sys | apply emits_peek
        | apply emits_read
        | apply emits_bind; [|intros ?] ].

Section Phases.
Variable Qc : call PublicKey → Prop.

Lemma emits_setServerSettings (ocfg : Config.t) :
  Qc (SetAllowKeyless (Config.AllowKeyless ocfg)) →
  (backend_ParseAccessLevel (Config.AnonAccess ocfg) >= 0 →
   Qc (SetAnonAccess (backend_ParseAccessLevel (Config.AnonAccess ocfg)))) →
  emits (onCalls Qc) (setServerSettings ocfg).
Proof.
  intros Hkeyless Hanon. unfold setServerSettings.
  repeat emits_step.
  destruct (decide _) as [Hge|_]; repeat emits_step.
Qed.

Lemma emits_copyRepos (fuel : nat) (reposPath : string)
    (cfg : config.Config) :
  (∀ name, Qc (CreateRepository name)) →
  emits (onCalls Qc) (copyRepos fuel reposPath cfg).
Proof.
  intros Hrepo. unfold copyRepos.
  destruct (decide _) as [_|_]; repeat emits_step.
  unfold copyRepo. destruct (negb _); repeat emits_step.
  destruct (negb _); repeat emits_step.
Qed.

Lemma emits_setRepoMetadata (repo : RepoConfig.t) :
  (∀ r n, Qc (SetProjectName r n)) → (∀ r d, Qc (SetDescription r d)) →
  (∀ r b, Qc (SetPrivate r b)) → (∀ r u, Qc (AddCollaborator r u)) →
  emits (onCalls Qc) (setRepoMetadata repo).
Proof.
  intros H1 H2 H3 H4. unfold setRepoMetadata.
  repeat emits_step.
Qed.

Lemma emits_createUser (user : User.t) :
  (∀ n o, Qc (CreateUser n o)) → (∀ r u, Qc (AddCollaborator r u)) →
  emits (onCalls Qc) (createUser user).
Proof.
  intros H1 H2. unfold createUser.
  repeat emits_step.
Qed.

Lemma emits_migrate (fuel : nat) (reposPath : string)
    (cfg : config.Config) (ocfg : Config.t) :
  (∀ c, (∀ l, c ≠ SetAnonAccess l) → Qc c) →
  (backend_ParseAccessLevel (Config.AnonAccess ocfg) >= 0 →
   Qc (SetAnonAccess (backend_ParseAccessLevel (Config.AnonAccess ocfg)))) →
  emits (onCalls Qc) (migrate fuel reposPath cfg ocfg).
Proof.
  intros Hother Hanon. unfold migrate.
  apply emits_bind; [by apply emits_setServerSettings; auto|]. intros _.
  apply emits_bind; [by apply emits_copyRepos; auto|]. intros _.
  apply emits_bind; [by apply emits_emit|]. intros _.
  apply emits_bind;
    [apply emits_forM_; intros repo;
     by apply emits_setRepoMetadata; auto|]. intros _.
  apply emits_bind; [by apply emits_emit|]. intros _.
  apply emits_bind;
    [apply emits_forM_; intros user; by apply emits_createUser; auto|].
  intros _. apply emits_ret.
Qed.
End Phases.

(** The phase "Set server settings", entry by entry. *)
Lemma setServerSettings_run (ocfg : Config.t) (s : state) :
  let anon := backend_ParseAccessLevel (Config.AnonAccess ocfg) in
  let keyless := backend_do (SetAllowKeyless (Config.AllowKeyless ocfg))
                   (world s) in
  let head := LogInfo "Setting server settings..." []
              :: Called (SetAllowKeyless (Config.AllowKeyless ocfg))
              :: failureLog keyless.1
                   (λ _, Stderr "failed to set allow keyless\n" []) in
  setServerSettings ocfg s
  = Some (Ok tt,
          if decide (anon >= 0) then
            mkState (backend_do (SetAnonAccess anon) keyless.2).2
              (trace s ++ head
               ++ Called (SetAnonAccess anon)
               :: failureLog (backend_do (SetAnonAccess anon) keyless.2).1
                    (λ err, Stderr "failed to set anon access: %s\n"
                              [AErr err]))
          else mkState keyless.2 (trace s ++ head)).
Proof.
  intros anon keyless head. unfold setServerSettings.
  unfold emit at 1. unfold bind at 1.
  erewrite bind_Ok;
    [|apply (onErr_backend _ (λ _, Stderr "failed to set allow keyless\n" []))].
  fold anon. destruct (decide (anon >= 0)) as [Hge|Hlt].
  - rewrite onErr_backend. cbn [world trace record].
    fold keyless. unfold head. by rewrite <- !app_assoc.
  - unfold ret. cbn [world trace record].
    fold keyless. unfold head. by rewrite <- !app_assoc.
Qed.

(** C10. The phase "Set server settings" always goes on to the next phase.
    When the anonymous access string of the legacy config parses to a
    level below zero, the phase issues the [SetAllowKeyless] call only: no
    [SetAnonAccess] call, and nothing printed about one.  When the level
    is not negative it issues [SetAnonAccess] with that level.  And in the
    whole migration a [SetAnonAccess] call is only ever made with the
    parsed level, and only when that level is not negative. *)
Theorem anon_access_written_only_when_valid (fuel : nat)
    (reposPath : string) (cfg : config.Config) (ocfg : Config.t)
    (s : state) :
  let anon := backend_ParseAccessLevel (Config.AnonAccess ocfg) in
  let keyless := backend_do (SetAllowKeyless (Config.AllowKeyless ocfg))
                   (world s) in
  (∃ s1 evs,
     setServerSettings ocfg s = Some (Ok tt, s1)
     ∧ trace s1 = trace s ++ evs
     ∧ (anon < 0 →
        world s1 = keyless.2
        ∧ evs = LogInfo "Setting server settings..." []
                :: Called (SetAllowKeyless (Config.AllowKeyless ocfg))
                :: failureLog keyless.1
                     (λ _, Stderr "failed to set allow keyless\n" []))
     ∧ (anon >= 0 →
        calls evs = [SetAllowKeyless (Config.AllowKeyless ocfg);
                     SetAnonAccess anon]))
  ∧ (∀ r s', migrate fuel reposPath cfg ocfg s = Some (r, s') →
       ∃ evs, trace s' = trace s ++ evs
              ∧ ∀ l, SetAnonAccess l ∈ calls evs → l = anon ∧ anon >= 0).
Proof.
  intros anon keyless. split.
  - pose proof (setServerSettings_run ocfg s) as Hrun.
    cbv zeta in Hrun. fold anon keyless in Hrun.
    destruct (decide (anon >= 0)) as [Hge|Hlt].
    + eexists _, _. split; [exact Hrun|]. split; [done|]. split; [lia|].
      intros _. rewrite calls_app.
      change (calls (LogInfo ?f ?a :: ?l)) with (calls l).
      rewrite !calls_Called, !calls_failureLog by done. done.
    + eexists _, _. split; [exact Hrun|]. split; [done|]. split; [done|lia].
  - intros r s' Hrun.
    eapply (emits_migrate
              (λ c, ∀ l, c = SetAnonAccess l → l = anon ∧ anon >= 0))
      in Hrun as (evs & Htr & Hall).
    + exists evs. split; [done|]. intros l Hl.
      by eapply (Forall_onCalls _ _ Hall).
    + intros c Hc l ->. by destruct (Hc l).
    + intros Hge l [= <-]. done.
Qed.

End Migration.

(** ** The target configuration *)

(** [Itoa] writes the decimal numeral of its argument: read back as a
    decimal numeral, the string is the number. *)
Lemma Itoa_decimal (z : Z) :
  Z.of_int <$> NilZero.int_of_string (Itoa z) = Some z.
Proof.
  unfold Itoa. rewrite NilZero.isi.
  - simpl. f_equal. apply DecimalZ.of_to.
  - destruct z; simpl; try discriminate.
    intros [= H]. by apply DecimalPos.Unsigned.to_uint_nonnil in H.
  - destruct z; simpl; try discriminate.
    intros [= H]. by apply DecimalPos.Unsigned.to_uint_nonnil in H.
Qed.

Section Target.
Context {P : Platform}.

Lemma bind_read {A B} (op : World → A) (f : A → M state B) (s : state) :
  bind (read op) f s = f (op (world s)) s.
Proof. done. Qed.

Lemma bind_emit {B} (ev : event PublicKey) (f : unit → M state B)
    (s : state) :
  bind (emit ev) f s = f tt (record ev s).
Proof. done. Qed.

(** The configuration that [migrate] hands to the writer. *)
Lemma migrate_cfg (fuel : nat) (reposPath : string) (cfg : config.Config)
    (ocfg : Config.t) (s : state) cfg' s' :
  migrate fuel reposPath cfg ocfg s = Some (Ok cfg', s') →
  cfg' = config.with_PublicURL (config.with_Name cfg (Config.Name ocfg))
           (Sprintf "ssh://%s:%d"
              [AStr (Config.Host ocfg); AInt (Config.Port ocfg)]).
Proof.
  unfold migrate. intros H.
  repeat (apply bind_inv in H as [(? & ? & _ & H)|(? & _ & ?)];
          [|discriminate]).
  by injection H as <- _.
Qed.

End Target.

(** ** The tree copier *)

Section Copier.
Context {P : Platform}.

Lemma bind_ret_tt (m : M state unit) (s : state) :
  bind m (λ _, ret tt) s = m s.
Proof.
  unfold bind, ret. by destruct (m s) as [[[[]|e] s1]|].
Qed.

Lemma copyFile_total (src dst : string) (s : state) :
  ∃ r s', copyFile src dst s = Some (r, s').
Proof.
  unfold copyFile, bind, defer, sys, peek.
  destruct (os_Open src (world s)) as [[srcfd|e] w1]; cbn [world trace];
    [|by eexists _, _].
  destruct (os_Create dst w1) as [[dstfd|e] w2]; cbn [world trace];
    [|by eexists _, _].
  destruct (io_Copy dstfd srcfd w2) as [[n|e] w3]; cbn [world trace];
    [|by eexists _, _].
  destruct (os_Stat src w3) as [srcinfo|e]; [|by eexists _, _].
  destruct (os_Chmod dst (fi_Mode srcinfo) w3) as [r w4].
  by eexists _, _.
Qed.

Lemma copyEntry_copyChild rec (src dst : string) (fd : DirEntry) :
  copyEntry rec src dst fd
  = onErr (copyChild rec src dst fd) (λ err, emit (Println err)).
Proof. unfold copyEntry, copyChild. by destruct (de_IsDir fd). Qed.

(** A turn of the loop never returns an error. *)
Lemma copyEntry_no_error rec (src dst : string) (fd : DirEntry) s e s' :
  copyEntry rec src dst fd s ≠ Some (Err e, s').
Proof.
  rewrite copyEntry_copyChild. apply onErr_no_error. by intros e1 s1 e2 s2.
Qed.

(** A turn of the loop ends when the copy it starts does. *)
Lemma copyEntry_total rec (src dst : string) (fd : DirEntry) s :
  (∃ r s1, copyChild rec src dst fd s = Some (r, s1)) →
  ∃ s', copyEntry rec src dst fd s = Some (Ok tt, s').
Proof.
  intros ([[]|e] & s1 & H); rewrite copyEntry_copyChild.
  - rewrite (onErr_Ok _ _ _ _ _ H). by eexists.
  - rewrite (onErr_Err _ _ _ _ _ H). by eexists.
Qed.

(** The copier, one level unfolded. *)
Lemma copyDir_S (fuel : nat) (src dst : string) (s : state) :
  copyDir (S fuel) src dst s =
  match os_Stat src (world s) with
  | Err e => Some (Err e, s)
  | Ok srcinfo =>
      let mk := os_MkdirAll dst (fi_Mode srcinfo) (world s) in
      let s1 := mkState mk.2 (trace s) in
      match mk.1 with
      | Err e => Some (Err e, s1)
      | Ok _ =>
          match os_ReadDir src mk.2 with
          | Err e => Some (Err e, s1)
          | Ok fds => forM_ fds (copyEntry (copyDir fuel) src dst) s1
          end
      end
  end.
Proof.
  cbn [copyDir]. unfold bind at 1. rewrite peek_run.
  destruct (os_Stat src (world s)) as [srcinfo|e]; [|done].
  unfold bind at 1. unfold sys.
  destruct (os_MkdirAll dst (fi_Mode srcinfo) (world s)) as [[[]|e] w1];
    [|done].
  unfold bind at 1. rewrite peek_run. cbn [world fst snd].
  destruct (os_ReadDir src w1) as [fds|e]; [|done].
  by rewrite bind_ret_tt.
Qed.

(** On a platform of bounded depth the copier returns, with fuel above the
    rank of its source. *)
Lemma copyDir_total `{!BoundedDepth P} (fuel : nat) (src dst : string)
    (s : state) :
  (rank src < fuel)%nat → ∃ r s', copyDir fuel src dst s = Some (r, s').
Proof.
  revert src dst s. induction fuel as [|fuel IH]; intros src dst s Hrank;
    [lia|].
  cbn [copyDir]. unfold bind at 1. rewrite peek_run.
  destruct (os_Stat src (world s)) as [srcinfo|e]; [|by eexists _, _].
  unfold bind at 1. unfold sys.
  destruct (os_MkdirAll dst (fi_Mode srcinfo) (world s)) as [[[]|e] w1];
    [|by eexists _, _].
  unfold bind at 1. rewrite peek_run. cbn [world].
  destruct (os_ReadDir src _) as [fds|e] eqn:Hfds; [|by eexists _, _].
  rewrite bind_ret_tt.
  destruct (forM__total fds (copyEntry (copyDir fuel) src dst)) with
    (s := mkState w1 (trace s)) as [s' Hs']; [|by eexists _, _].
  intros fd s0 Hfd. apply copyEntry_total. unfold copyChild.
  destruct (de_IsDir fd) eqn:Hdir; [|apply copyFile_total].
  apply IH. pose proof (rank_ReadDir w1 src fds fd Hfds Hfd Hdir). lia.
Qed.

(** C8. The copier returns an error in three cases only, each at the top
    of the tree: [os.Stat] of the source fails, [os.MkdirAll] of the
    destination fails, or [os.ReadDir] of the source fails; the error is
    the one of that call.  Once the three have succeeded the copier is the
    loop over the entries, and whatever it returns is success.  In the loop
    a child, file or directory, whose copy fails has its error printed,
    and the loop goes on with the entries that follow.  On a platform of
    bounded depth the copier does return. *)
Theorem copyDir_fails_only_at_top (fuel : nat) (src dst : string)
    (s : state) :
  (∀ e, os_Stat src (world s) = Err e →
     copyDir (S fuel) src dst s = Some (Err e, s))
  ∧ (∀ fi, os_Stat src (world s) = Ok fi →
       let mk := os_MkdirAll dst (fi_Mode fi) (world s) in
       let s1 := mkState mk.2 (trace s) in
       (∀ e, mk.1 = Err e → copyDir (S fuel) src dst s = Some (Err e, s1))
       ∧ (mk.1 = Ok tt →
          (∀ e, os_ReadDir src mk.2 = Err e →
             copyDir (S fuel) src dst s = Some (Err e, s1))
          ∧ (∀ fds, os_ReadDir src mk.2 = Ok fds →
               copyDir (S fuel) src dst s
               = forM_ fds (copyEntry (copyDir fuel) src dst) s1
               ∧ ∀ r s', copyDir (S fuel) src dst s = Some (r, s') →
                         r = Ok tt)))
  ∧ (∀ rec fd rest s0 e s1,
       copyChild rec src dst fd s0 = Some (Err e, s1) →
       forM_ (fd :: rest) (copyEntry rec src dst) s0
       = forM_ rest (copyEntry rec src dst) (record (Println e) s1))
  ∧ (∀ rec fd rest s0 s1,
       copyChild rec src dst fd s0 = Some (Ok tt, s1) →
       forM_ (fd :: rest) (copyEntry rec src dst) s0
       = forM_ rest (copyEntry rec src dst) s1)
  ∧ (∀ B : BoundedDepth P, (rank src < S fuel)%nat →
       ∃ r s', copyDir (S fuel) src dst s = Some (r, s')).
Proof.
  split; [|split; [|split; [|split]]].
  - intros e He. by rewrite copyDir_S, He.
  - intros fi Hfi. cbv zeta. rewrite !copyDir_S, Hfi.
    destruct (os_MkdirAll dst (fi_Mode fi) (world s)) as [r1 w1].
    cbn [fst snd]. split.
    + by intros e ->.
    + intros ->. split.
      * by intros e ->.
      * intros fds ->. split; [done|].
        intros [[]|e] s' H; [done|].
        by apply forM__no_error in H;
          [|intros; apply copyEntry_no_error].
  - intros rec fd rest s0 e s1 H. cbn [forM_].
    rewrite copyEntry_copyChild. unfold bind.
    by rewrite (onErr_Err _ _ _ _ _ H).
  - intros rec fd rest s0 s1 H. cbn [forM_].
    rewrite copyEntry_copyChild. unfold bind.
    by rewrite (onErr_Ok _ _ _ _ _ H).
  - intros B Hrank. by apply copyDir_total.
Qed.

End Copier.

(** ** The repository importer *)

Section Importer.
Context {P : Platform}.



End Importer.

(** ** The platform in memory has bounded depth *)

Lemma Mock_depth_app (a b : string) :
  Mock.depth (a +:+ b) = (Mock.depth a + Mock.depth b)%nat.
Proof.
  induction a as [|c a IH]; [done|].
  change (String c a +:+ b) with (String c (a +:+ b)). simpl.
  rewrite IH. lia.
Qed.

Lemma Mock_childOf_name (p : string) (e : string * Mock.node) (fd : DirEntry) :
  Mock.childOf p e = Some fd →
  de_Name fd ≠ "" ∧ Mock.depth (de_Name fd) = 0%nat.
Proof.
  unfold Mock.childOf. destruct (String.prefix _ _); [|done].
  destruct (Mock.nonEmpty _) eqn:Hne; [|done].
  destruct (Nat.eqb _ 0) eqn:Hd; [|done]. simpl.
  intros [= <-]. simpl. split.
  - intros Heq. unfold Mock.nonEmpty in Hne. by rewrite Heq in Hne.
  - by apply Nat.eqb_eq.
Qed.

Lemma Mock_rank_ReadDir (w : Mock.world) (src : string) (fds : list DirEntry)
    (fd : DirEntry) :
  Mock.ReadDir src w = Ok fds → fd ∈ fds → de_IsDir fd = true →
  (Mock.limit - Mock.depth (Mock.Join [src; de_Name fd])
   < Mock.limit - Mock.depth src)%nat.
Proof.
  unfold Mock.ReadDir. intros Hread Hfd _.
  destruct (Mock.nonEmpty src) eqn:Hsrc; [|done].
  destruct (Nat.ltb (Mock.depth src) Mock.limit) eqn:Hlt; [|done].
  simpl in Hread. apply Nat.ltb_lt in Hlt.
  destruct (Mock.assoc src (Mock.files w)) as [[mode|mode data]|]; try done.
  injection Hread as <-.
  apply list_elem_of_omap in Hfd as (e & _ & He).
  apply Mock_childOf_name in He as [Hname Hdepth].
  unfold Mock.Join. cbn [foldl]. unfold Mock.join2 at 2. cbn [String.eqb].
  unfold Mock.join2. unfold Mock.nonEmpty in Hsrc.
  destruct (String.eqb src "") eqn:E1; [done|].
  destruct (String.eqb (de_Name fd) "") eqn:E2.
  { by apply String.eqb_eq in E2. }
  rewrite !Mock_depth_app, Hdepth. simpl. lia.
Qed.

Lemma mock_BoundedDepth (yamlDoc jsonDoc : Config.t) :
  BoundedDepth (mock yamlDoc jsonDoc).
Proof.
  refine {| rank := λ p, (Mock.limit - Mock.depth p)%nat |}.
  intros w src fds fd Hread Hfd Hdir.
  exact (Mock_rank_ReadDir w src fds fd Hread Hfd Hdir).
Defined.

(** ** Which errors a computation returns *)

Section FailFacts.
Context {S : Type}.
Variable Q : error → Prop.

Lemma failsOnly_ret {A} (a : A) : failsOnly (S := S) Q (ret a).
Proof. by intros s e s'. Qed.

Lemma failsOnly_bind {A B} (m : M S A) (f : A → M S B) :
  failsOnly Q m → (∀ a, failsOnly Q (f a)) → failsOnly Q (bind m f).
Proof.
  intros Hm Hf s e s' [(a & s1 & _ & H)|(e' & H & [= ->])]%bind_inv.
  - by eapply Hf.
  - by eapply Hm.
Qed.

Lemma failsOnly_onErr {A} (m : M S A) (h : error → M S unit) :
  (∀ e, failsOnly Q (h e)) → failsOnly Q (onErr m h).
Proof.
  intros Hh s e s'. unfold onErr, bind, attempt.
  destruct (m s) as [[[a|e1] s1]|]; try done. apply Hh.
Qed.

Lemma failsOnly_orWrap {A} prefix (m : M S A) :
  (∀ e, Q (wrapError prefix e)) → failsOnly Q (orWrap prefix m).
Proof.
  intros HQ s e s'. unfold orWrap.
  destruct (m s) as [[[a|e1] s1]|]; try done. intros [= <- _]. apply HQ.
Qed.

Lemma failsOnly_forM_ {A} (l : list A) (body : A → M S unit) :
  (∀ x, failsOnly Q (body x)) → failsOnly Q (forM_ l body).
Proof.
  intros Hbody. induction l as [|x l IH]; simpl.
  - apply failsOnly_ret.
  - apply failsOnly_bind; [apply Hbody|]. by intros _.
Qed.

Lemma failsOnly_defer {A} (cleanup : S → S) (m : M S A) :
  failsOnly Q m → failsOnly Q (defer cleanup m).
Proof.
  intros Hm s e s'. unfold defer.
  destruct (m s) as [[r s1]|] eqn:Hms; [|done].
  intros [= -> _]. by eapply Hm.
Qed.

End FailFacts.

Lemma failsOnly_weaken {S A} (Q Q' : error → Prop) (m : M S A) :
  (∀ e, Q e → Q' e) → failsOnly Q m → failsOnly Q' m.
Proof. intros HQ Hm s e s' H. by eapply HQ, Hm. Qed.

Lemma wrappedBy_here (prefixes : list string) (prefix : string) (e : error) :
  prefix ∈ prefixes → wrappedBy prefixes (wrapError prefix e).
Proof. intros Hin. by exists prefix, e. Qed.

Lemma wrappedBy_subseteq (l1 l2 : list string) (e : error) :
  l1 ⊆ l2 → wrappedBy l1 e → wrappedBy l2 e.
Proof. intros Hsub (prefix & err & -> & Hin). exists prefix, err. auto. Qed.

Section PhaseFailures.
Context {P : Platform}.

Lemma failsOnly_emit (Q : error → Prop) (ev : event PublicKey) :
  failsOnly Q (emit ev).
Proof. by intros s e s'. Qed.

Lemma failsOnly_read {A} (Q : error → Prop) (op : World → A) :
  failsOnly Q (read op).
Proof. by intros s e s'. Qed.

Ltac fails_step :=
  first [ apply failsOnly_ret | apply failsOnly_emit | apply failsOnly_read
        | apply failsOnly_onErr; intros ?
        | apply failsOnly_orWrap; intros ?; apply wrappedBy_here;
          apply list_elem_of_In; cbn; tauto
        | apply failsOnly_forM_; intros ?
        | apply failsOnly_bind; [|intros ?] ].

Lemma failsOnly_copySSHHostKey (keyPath : string) (cfg : config.Config) :
  failsOnly (wrappedBy sshPrefixes) (copySSHHostKey keyPath cfg).
Proof.
  unfold copySSHHostKey. destruct (decide _); repeat fails_step.
Qed.

Lemma failsOnly_readConfig (reposPath : string) :
  failsOnly (wrappedBy readPrefixes) (readConfig reposPath).
Proof.
  unfold readConfig, configEntry. repeat fails_step.
  - destruct a2 as [te|e]; repeat fails_step.
  - destruct a2 as [te isJson]. repeat fails_step.
    destruct isJson; repeat fails_step.
Qed.

Lemma failsOnly_setServerSettings (Q : error → Prop) (ocfg : Config.t) :
  failsOnly Q (setServerSettings ocfg).
Proof.
  unfold setServerSettings. repeat fails_step.
  destruct (decide _); repeat fails_step.
Qed.

Lemma failsOnly_copyRepos (fuel : nat) (reposPath : string)
    (cfg : config.Config) :
  failsOnly (wrappedBy importPrefixes) (copyRepos fuel reposPath cfg).
Proof.
  unfold copyRepos. destruct (decide _); repeat fails_step.
  unfold copyRepo. destruct (negb _); repeat fails_step.
  destruct (negb _); repeat fails_step.
Qed.

Lemma failsOnly_setRepoMetadata (Q : error → Prop) (repo : RepoConfig.t) :
  failsOnly Q (setRepoMetadata repo).
Proof. unfold setRepoMetadata. repeat fails_step. Qed.

Lemma failsOnly_createUser (Q : error → Prop) (user : User.t) :
  failsOnly Q (createUser user).
Proof. unfold createUser. repeat fails_step. Qed.

Lemma failsOnly_migrate (fuel : nat) (reposPath : string)
    (cfg : config.Config) (ocfg : Config.t) :
  failsOnly (wrappedBy importPrefixes) (migrate fuel reposPath cfg ocfg).
Proof.
  unfold migrate.
  apply failsOnly_bind; [apply failsOnly_setServerSettings|]. intros _.
  apply failsOnly_bind; [apply failsOnly_copyRepos|]. intros _.
  apply failsOnly_bind; [apply failsOnly_emit|]. intros _.
  apply failsOnly_bind;
    [apply failsOnly_forM_; intros repo; apply failsOnly_setRepoMetadata|].
  intros _. apply failsOnly_bind; [apply failsOnly_emit|]. intros _.
  apply failsOnly_bind;
    [apply failsOnly_forM_; intros user; apply failsOnly_createUser|].
  intros _. apply failsOnly_ret.
Qed.

End PhaseFailures.

(** ** The shape of a run *)

Section RunShape.
Context {P : Platform}.

Lemma calls_nil_of_Forall (evs : list (event PublicKey)) :
  Forall (onCalls (λ _, False)) evs → calls evs = [].
Proof.
  induction 1 as [|ev evs Hev _ IH]; [done|].
  destruct ev; try done.
Qed.

Lemma calls_LogInfo format args (evs : list (event PublicKey)) :
  calls (LogInfo format args :: evs) = calls evs.
Proof. done. Qed.

Lemma calls_nil : calls (@nil (event PublicKey)) = [].
Proof. done. Qed.

Ltac calls_simpl :=
  rewrite ?calls_app, ?calls_LogInfo, ?calls_Called, ?calls_nil,
    ?app_nil_l, ?app_nil_r.

Ltac emits_step :=
  first [ apply emits_backend; cbn [onCalls]; solve [auto]
        | apply emits_onErr; [|intros ?]
        | apply emits_orWrap
        | apply emits_forM_; intros ?
        | apply emits_copyFile
        | apply emits_copyDir; intros ?; exact I
        | apply emits_emit; exact I
        | apply emits_ret | apply emits_sys | apply emits_peek
        | apply emits_read
        | apply emits_bind; [|intros ?] ].

Lemma emits_copySSHHostKey (Qc : call PublicKey → Prop) (keyPath : string)
    (cfg : config.Config) :
  emits (onCalls Qc) (copySSHHostKey keyPath cfg).
Proof.
  unfold copySSHHostKey. destruct (decide _); repeat emits_step.
Qed.

Lemma keepsState_ret {A} (a : A) : keepsState (S := state) (ret a).
Proof. intros s. by eexists. Qed.

Lemma keepsState_peek {A} (op : World → result A) : keepsState (peek op).
Proof. intros s. by eexists. Qed.

Lemma keepsState_bind {A B} (m : M state A) (f : A → M state B) :
  keepsState m → (∀ a, keepsState (f a)) → keepsState (bind m f).
Proof.
  intros Hm Hf s. destruct (Hm s) as [[a|e] H]; unfold bind; rewrite H.
  - apply Hf.
  - by eexists.
Qed.

Lemma keepsState_orWrap {A} prefix (m : M state A) :
  keepsState m → keepsState (orWrap prefix m).
Proof.
  intros Hm s. destruct (Hm s) as [[a|e] H]; unfold orWrap; rewrite H;
    by eexists.
Qed.

Lemma keepsState_attempt {A} (m : M state A) :
  keepsState m → keepsState (attempt m).
Proof.
  intros Hm s. destruct (Hm s) as [r H]. unfold attempt. rewrite H.
  by eexists.
Qed.

(** Reading the legacy configuration changes nothing. *)
Lemma keepsState_readConfig (reposPath : string) :
  keepsState (readConfig reposPath).
Proof.
  unfold readConfig, configEntry.
  repeat first [ apply keepsState_peek | apply keepsState_ret
               | apply keepsState_orWrap | apply keepsState_attempt
               | apply keepsState_bind; [|intros ?]
               | match goal with
                 | |- keepsState (match ?x with _ => _ end) => destruct x
                 | |- keepsState (if ?x then _ else _) => destruct x
                 end ].
Qed.

Lemma readConfig_state (reposPath : string) (s : state) r s' :
  readConfig reposPath s = Some (r, s') → s' = s.
Proof.
  destruct (keepsState_readConfig reposPath s) as [r' ->].
  by intros [= _ <-].
Qed.

(** The host key phase returns the configuration with the key path set,
    or the one it was given. *)
Lemma copySSHHostKey_cfg (keyPath : string) (cfg : config.Config)
    (s : state) cfg' s' :
  copySSHHostKey keyPath cfg s = Some (Ok cfg', s') →
  cfg' = if decide (keyPath ≠ EmptyString)
         then config.with_KeyPath cfg
                (filepath_Join [config.DataPath cfg; "ssh";
                                filepath_Base keyPath])
         else cfg.
Proof.
  unfold copySSHHostKey. destruct (decide _) as [Hne|Heq].
  - intros H.
    repeat (apply bind_inv in H as [(? & ? & _ & H)|(? & _ & ?)];
            [|discriminate]).
    by injection H as <- _.
  - by intros [= <- _].
Qed.

Lemma emits_migrate_calls (Qc : call PublicKey → Prop) (fuel : nat)
    (reposPath : string) (cfg : config.Config) (ocfg : Config.t) :
  (∀ c, isWriteConfig c = false → isNewSqliteBackend c = false → Qc c) →
  emits (onCalls Qc) (migrate fuel reposPath cfg ocfg).
Proof.
  intros HQ. unfold migrate.
  apply emits_bind; [by apply emits_setServerSettings; intros; apply HQ|].
  intros _.
  apply emits_bind; [by apply emits_copyRepos; intros; apply HQ|].
  intros _. apply emits_bind; [by apply emits_emit|]. intros _.
  apply emits_bind;
    [apply emits_forM_; intros repo;
     by apply emits_setRepoMetadata; intros; apply HQ|].
  intros _. apply emits_bind; [by apply emits_emit|]. intros _.
  apply emits_bind;
    [apply emits_forM_; intros user;
     by apply emits_createUser; intros; apply HQ|].
  intros _. apply emits_ret.
Qed.

(** The configuration that [migrate] returns, from the one the host key
    phase returns. *)
Lemma targetConfig_eq (w : World) (ocfg : Config.t) :
  let keyPath := os_Getenv "SOFT_SERVE_KEY_PATH" w in
  let bindAddr := os_Getenv "SOFT_SERVE_BIND_ADDRESS" w in
  let cfgL := if decide (bindAddr ≠ EmptyString)
              then config.with_ListenAddr (config_DefaultConfig w) bindAddr
              else config_DefaultConfig w in
  let cfgK := if decide (keyPath ≠ EmptyString)
              then config.with_KeyPath cfgL
                     (filepath_Join [config.DataPath cfgL; "ssh";
                                     filepath_Base keyPath])
              else cfgL in
  targetConfig w ocfg
  = config.with_PublicURL (config.with_Name cfgK (Config.Name ocfg))
      (Sprintf "ssh://%s:%d"
         [AStr (Config.Host ocfg); AInt (Config.Port ocfg)]).
Proof. reflexivity. Qed.

(** A run is its prologue, the reader and its epilogue. *)
Lemma RunE_prologue (fuel : nat) (s : state) :
  RunE fuel s
  = (let* cfg := prologue in
     let* ocfg := readConfig (os_Getenv "SOFT_SERVE_REPO_PATH" (world s)) in
     epilogue fuel (os_Getenv "SOFT_SERVE_REPO_PATH" (world s)) cfg ocfg) s.
Proof.
  unfold RunE, prologue, epilogue, bind, read, emit, ret.
  cbv beta iota.
  destruct (orWrap _ _ s) as [[[[]|e] s0]|]; [|done|done].
  cbv beta iota.
  by destruct (copySSHHostKey _ _ _) as [[[cfg0|e] sk]|].
Qed.

(** How a run ends: at the initialisation of the backend; in the host key
    phase or the reader; in the migration; or at the writer. *)
Lemma RunE_cases (fuel : nat) (s : state) r s' :
  RunE fuel s = Some (r, s') →
  let w := world s in
  let reposPath := os_Getenv "SOFT_SERVE_REPO_PATH" w in
  let init := NewSqliteBackend (config_DefaultConfig w) in
  (∃ e, (backend_do init w).1 = Err e
        ∧ r = Err (wrapError "failed to create sqlite backend: " e)
        ∧ s' = mkState (backend_do init w).2 (trace s ++ [Called init]))
  ∨ (∃ e evs, r = Err e ∧ wrappedBy (sshPrefixes ++ readPrefixes) e
              ∧ trace s' = trace s ++ Called init :: evs ∧ calls evs = [])
  ∨ (∃ ocfg cfg0 s1 evs1 rm sm,
       prologue s = Some (Ok cfg0, s1)
       ∧ readConfig reposPath s1 = Some (Ok ocfg, s1)
       ∧ trace s1 = trace s ++ Called init :: evs1 ∧ calls evs1 = []
       ∧ migrate fuel reposPath cfg0 ocfg s1 = Some (rm, sm)
       ∧ ((∃ e, rm = Err e ∧ r = Err e ∧ s' = sm)
          ∨ (let path := filepath_Join
                           [config.DataPath (targetConfig w ocfg);
                            "config.yaml"] in
             let write := WriteConfig path (targetConfig w ocfg) in
             rm = Ok (targetConfig w ocfg)
             ∧ r = (backend_do write (world sm)).1
             ∧ s' = mkState (backend_do write (world sm)).2
                      (trace sm
                       ++ [LogInfo "Writing config..." []; Called write;
                           LogInfo "Done!" []])))).
Proof.
  intros H w reposPath init. unfold RunE in H. rewrite !bind_read in H.
  fold w reposPath in H.
  apply bind_inv in H as [([] & s0 & H0 & H)|(e & H0 & ->)].
  2:{ left. unfold orWrap in H0. rewrite backend_run in H0.
      fold w init in H0.
      destruct (backend_do init w) as [[[]|e0] w0]; [done|].
      injection H0 as <- <-. by exists e0. }
  right.
  assert (trace s0 = trace s ++ [Called init]) as Htr0.
  { unfold orWrap in H0. rewrite backend_run in H0.
    destruct (backend_do _ _) as [[[]|e0] w0]; [|done].
    by injection H0 as <-. }
  rewrite bind_emit, bind_emit in H.
  apply bind_inv in H as [(cfg0 & sk & Hkey & H)|(e & Hkey & ->)].
  2:{ left. apply (emits_copySSHHostKey (λ _, False)) in Hkey as Hev.
      destruct Hev as (evs & Htr & Hall).
      apply failsOnly_copySSHHostKey in Hkey.
      eexists e, _. split; [done|]. split.
      { eapply wrappedBy_subseteq; [|exact Hkey].
        intros x Hx. apply elem_of_app. by left. }
      split.
      { rewrite Htr. cbn [record trace]. rewrite Htr0.
        by rewrite <- !app_assoc. }
      calls_simpl. by apply calls_nil_of_Forall. }
  assert (prologue s
          = Some (Ok cfg0,
                  record (LogInfo "Reading config repository..." []) sk))
    as Hpro.
  { unfold prologue. rewrite !bind_read.
    rewrite (bind_Ok _ _ _ _ _ H0), !bind_emit.
    rewrite (bind_Ok _ _ _ _ _ Hkey). by rewrite bind_emit. }
  pose proof Hkey as Hcfg0%copySSHHostKey_cfg.
  apply (emits_copySSHHostKey (λ _, False)) in Hkey as (evk & Htrk & Hallk).
  cbn [record trace] in Htrk. rewrite Htr0, <- !app_assoc in Htrk.
  rewrite bind_emit in H.
  apply bind_inv in H as [(ocfg & s1 & Hread & H)|(e & Hread & ->)].
  2:{ left. pose proof Hread as ->%readConfig_state.
      apply failsOnly_readConfig in Hread.
      eexists e, _. split; [done|]. split.
      { eapply wrappedBy_subseteq; [|exact Hread].
        intros x Hx. apply elem_of_app. by right. }
      split.
      { cbn [record trace]. rewrite Htrk. by rewrite <- !app_assoc. }
      calls_simpl. by rewrite (calls_nil_of_Forall evk). }
  right. pose proof Hread as ->%readConfig_state.
  apply bind_inv in H as [(cfg & sm & Hmig & H)|(e & Hmig & ->)].
  - pose proof Hmig as Hcfg%migrate_cfg.
    rewrite bind_emit in H. unfold defer in H. rewrite backend_run in H.
    injection H as <- <-.
    eexists ocfg, cfg0, _, _, (Ok cfg), sm.
    split; [exact Hpro|]. split; [exact Hread|]. split.
    { cbn [record trace]. rewrite Htrk. by rewrite <- !app_assoc. }
    split.
    { calls_simpl. by rewrite (calls_nil_of_Forall evk). }
    split; [exact Hmig|]. right.
    assert (cfg = targetConfig w ocfg) as ->.
    { rewrite Hcfg, Hcfg0. reflexivity. }
    split; [done|]. split; [done|].
    unfold record. cbn [trace world]. by rewrite <- !app_assoc.
  - eexists ocfg, cfg0, _, _, (Err e), s'.
    split; [exact Hpro|]. split; [exact Hread|]. split.
    { cbn [record trace]. rewrite Htrk. by rewrite <- !app_assoc. }
    split.
    { calls_simpl. by rewrite (calls_nil_of_Forall evk). }
    split; [exact Hmig|]. left. by exists e.
Qed.

(** Once the prologue, the reader and the migration have succeeded, the
    run calls the writer on the configuration that the migration returns,
    and returns what the writer returns. *)
Lemma RunE_writes (fuel : nat) (s : state) cfg0 s1 ocfg cfg sm :
  let reposPath := os_Getenv "SOFT_SERVE_REPO_PATH" (world s) in
  let write := WriteConfig
                 (filepath_Join [config.DataPath cfg; "config.yaml"]) cfg in
  prologue s = Some (Ok cfg0, s1) →
  readConfig reposPath s1 = Some (Ok ocfg, s1) →
  migrate fuel reposPath cfg0 ocfg s1 = Some (Ok cfg, sm) →
  RunE fuel s
  = Some ((backend_do write (world sm)).1,
          mkState (backend_do write (world sm)).2
            (trace sm
             ++ [LogInfo "Writing config..." []; Called write;
                 LogInfo "Done!" []])).
Proof.
  intros reposPath write Hpro Hread Hmig. rewrite RunE_prologue.
  fold reposPath.
  rewrite (bind_Ok _ _ _ _ _ Hpro), (bind_Ok _ _ _ _ _ Hread).
  unfold epilogue. rewrite (bind_Ok _ _ _ _ _ Hmig), bind_emit.
  unfold defer. rewrite backend_run. fold write.
  unfold record. cbn [trace world]. by rewrite <- !app_assoc.
Qed.

End RunShape.

(** ** Which computations return *)

Section Returns.
Context {S : Type}.

Lemma returns_ret {A} (a : A) : returns (S := S) (ret a).
Proof. intros s. by eexists _, _. Qed.

Lemma returns_bind {A B} (m : M S A) (f : A → M S B) :
  returns m → (∀ a, returns (f a)) → returns (bind m f).
Proof.
  intros Hm Hf s. destruct (Hm s) as ([a|e] & s1 & H); unfold bind;
    rewrite H.
  - apply Hf.
  - by eexists _, _.
Qed.

Lemma returns_attempt {A} (m : M S A) : returns m → returns (attempt m).
Proof.
  intros Hm s. destruct (Hm s) as (r & s1 & H). unfold attempt. rewrite H.
  by eexists _, _.
Qed.

Lemma returns_onErr {A} (m : M S A) (h : error → M S unit) :
  returns m → (∀ e, returns (h e)) → returns (onErr m h).
Proof.
  intros Hm Hh. unfold onErr. apply returns_bind.
  - by apply returns_attempt.
  - intros [a|e]; [apply returns_ret|apply Hh].
Qed.

Lemma returns_orWrap {A} prefix (m : M S A) :
  returns m → returns (orWrap prefix m).
Proof.
  intros Hm s. destruct (Hm s) as ([a|e] & s1 & H); unfold orWrap;
    rewrite H; by eexists _, _.
Qed.

Lemma returns_defer {A} (cleanup : S → S) (m : M S A) :
  returns m → returns (defer cleanup m).
Proof.
  intros Hm s. destruct (Hm s) as (r & s1 & H). unfold defer. rewrite H.
  by eexists _, _.
Qed.

Lemma returns_forM_ {A} (l : list A) (body : A → M S unit) :
  (∀ x, returns (body x)) → returns (forM_ l body).
Proof.
  intros Hbody. induction l as [|x l IH]; cbn [forM_].
  - apply returns_ret.
  - apply returns_bind; [apply Hbody|]. by intros _.
Qed.
End Returns.

Section RunReturns.
Context {P : Platform}.

Lemma returns_emit (ev : event PublicKey) : returns (emit ev).
Proof. intros s. by eexists _, _. Qed.

Lemma returns_sys {A} (op : World → result A * World) : returns (sys op).
Proof.
  intros s. unfold sys. destruct (op (world s)). by eexists _, _.
Qed.

Lemma returns_peek {A} (op : World → result A) : returns (peek op).
Proof. intros s. by eexists _, _. Qed.

Lemma returns_read {A} (op : World → A) : returns (read op).
Proof. intros s. by eexists _, _. Qed.

Lemma returns_backend (c : call PublicKey) : returns (backend c).
Proof. intros s. rewrite backend_run. by eexists _, _. Qed.

Lemma returns_copyFile (src dst : string) : returns (copyFile src dst).
Proof. intros s. apply copyFile_total. Qed.

(** On a platform of bounded depth the copier returns, when its fuel is
    above every rank. *)
Lemma returns_copyDir `{!BoundedDepth P} (fuel : nat) (src dst : string) :
  (∀ p, (rank p < fuel)%nat) → returns (copyDir fuel src dst).
Proof. intros Hrank s. apply copyDir_total, Hrank. Qed.

Ltac returns_step :=
  first [ apply returns_ret | apply returns_emit | apply returns_sys
        | apply returns_peek | apply returns_read | apply returns_backend
        | apply returns_copyFile
        | apply returns_copyDir; assumption
        | apply returns_attempt
        | apply returns_orWrap
        | apply returns_defer
        | apply returns_onErr; [|intros ?]
        | apply returns_forM_; intros ?
        | apply returns_bind; [|intros ?]
        | progress cbv zeta
        | match goal with
          | |- returns (match ?x with _ => _ end) => destruct x
          end ].

Lemma returns_copySSHHostKey (keyPath : string) (cfg : config.Config) :
  returns (copySSHHostKey keyPath cfg).
Proof. unfold copySSHHostKey. repeat returns_step. Qed.

Lemma returns_readConfig (reposPath : string) :
  returns (readConfig reposPath).
Proof. unfold readConfig, configEntry. repeat returns_step. Qed.

Lemma returns_prologue : returns prologue.
Proof.
  unfold prologue. repeat returns_step. apply returns_copySSHHostKey.
Qed.

(** The migration runs out of fuel in the copier only. *)
Lemma returns_migrate `{!BoundedDepth P} (fuel : nat) (reposPath : string)
    (cfg : config.Config) (ocfg : Config.t) :
  (∀ p, (rank p < fuel)%nat) →
  returns (migrate fuel reposPath cfg ocfg).
Proof.
  intros Hrank.
  unfold migrate, setServerSettings, copyRepos, copyRepo, setRepoMetadata,
    createUser.
  repeat returns_step.
Qed.

Lemma returns_RunE `{!BoundedDepth P} (fuel : nat) :
  (∀ p, (rank p < fuel)%nat) → returns (RunE fuel).
Proof.
  intros Hrank s. rewrite RunE_prologue.
  generalize (os_Getenv "SOFT_SERVE_REPO_PATH" (world s)).
  intros reposPath. revert s.
  apply returns_bind; [apply returns_prologue|]. intros cfg0.
  apply returns_bind; [apply returns_readConfig|]. intros ocfg.
  unfold epilogue.
  apply returns_bind; [by apply returns_migrate|]. intros cfg s.
  rewrite bind_emit. unfold defer. rewrite backend_run. by eexists _, _.
Qed.
End RunReturns.

(** ** The run as a whole *)

Section WholeRun.
Context {P : Platform}.

Lemma Forall_calls (Qc : call PublicKey → Prop)
    (evs : list (event PublicKey)) :
  Forall (onCalls Qc) evs → Forall Qc (calls evs).
Proof.
  intros Hall. apply Forall_forall. intros c Hc.
  by eapply Forall_onCalls.
Qed.

Lemma subseteq_fatal_import : importPrefixes ⊆ fatalPrefixes.
Proof.
  intros x Hx. unfold fatalPrefixes. right.
  apply elem_of_app. right. apply elem_of_app. by right.
Qed.

Lemma subseteq_fatal_prologue : sshPrefixes ++ readPrefixes ⊆ fatalPrefixes.
Proof.
  intros x Hx. unfold fatalPrefixes. right. rewrite app_assoc.
  apply elem_of_app. by left.
Qed.

(** X1. A run that returns an error returns one of twelve wrapped errors
    (the backend cannot be made, the host key cannot be copied, the legacy
    configuration cannot be read or decoded, the storage root cannot be
    listed, the repositories directory cannot be made, a repository cannot
    be copied) or the error of the configuration writer.  No other call
    fails a run. *)
Theorem run_fails_only_fatally (fuel : nat) (s : state) (e : error)
    (s' : state) :
  RunE fuel s = Some (Err e, s') →
  wrappedBy fatalPrefixes e
  ∨ ∃ ocfg w,
      (backend_do
         (WriteConfig
            (filepath_Join
               [config.DataPath (targetConfig (world s) ocfg); "config.yaml"])
            (targetConfig (world s) ocfg)) w).1 = Err e.
Proof.
  intros Hrun. apply RunE_cases in Hrun. cbv zeta in Hrun.
  destruct Hrun as [(e0 & _ & [= ->] & _)
                   |[(e0 & evs & [= <-] & Hw & _)
                    |(ocfg & cfg0 & s1 & evs1 & rm & sm & _ & _ & _ & _
                      & Hmig & [(e0 & -> & [= <-] & _)|(_ & Hr & _)])]].
  - left. apply wrappedBy_here. left.
  - left. by eapply wrappedBy_subseteq; [apply subseteq_fatal_prologue|].
  - left. apply failsOnly_migrate in Hmig.
    by eapply wrappedBy_subseteq; [apply subseteq_fatal_import|].
  - right. by exists ocfg, (world sm).
Qed.

(** X2. A run calls the configuration writer at most once, and only as its
    last call: either the run has failed before and no entry of its trace
    is a call of the writer, or its trace ends with the line "Writing
    config...", the call of the writer and the line "Done!", and has no
    call of the writer before these. *)
Theorem config_written_once_at_the_end (fuel : nat) (s : state)
    (r : result unit) (s' : state) :
  RunE fuel s = Some (r, s') →
  ∃ evs, trace s' = trace s ++ evs
    ∧ ((is_Ok r = false
        ∧ Forall (λ c, isWriteConfig c = false) (calls evs))
       ∨ ∃ evs0 write,
           evs = evs0 ++ [LogInfo "Writing config..." []; Called write;
                          LogInfo "Done!" []]
           ∧ isWriteConfig write = true
           ∧ Forall (λ c, isWriteConfig c = false) (calls evs0)).
Proof.
  intros Hrun. apply RunE_cases in Hrun. cbv zeta in Hrun.
  destruct Hrun as [(e0 & _ & -> & ->)
                   |[(e0 & evs & -> & _ & Htr & Hcalls)
                    |(ocfg & cfg0 & s1 & evs1 & rm & sm & _ & _ & Htr1
                      & Hcalls1 & Hmig & Hend)]].
  - eexists. split; [done|]. left. split; [done|].
    by repeat constructor.
  - eexists. split; [exact Htr|]. left. split; [done|].
    rewrite calls_Called, Hcalls. by repeat constructor.
  - apply (emits_migrate_calls (λ c, isWriteConfig c = false)) in Hmig
      as (evm & Htrm & Hallm); [|done].
    apply Forall_calls in Hallm.
    assert (Forall (λ c, isWriteConfig c = false)
              (calls (Called (NewSqliteBackend
                                (config_DefaultConfig (world s)))
                      :: evs1 ++ evm))) as Hbefore.
    { rewrite calls_Called, calls_app, Hcalls1. by constructor. }
    destruct Hend as [(e0 & _ & -> & ->)|(_ & _ & ->)].
    + eexists. split; [by rewrite Htrm, Htr1, <- app_assoc|].
      left. by split.
    + eexists. split.
      { cbn [trace]. by rewrite Htrm, Htr1, <- !app_assoc. }
      right. eexists _, _. split; [by rewrite <- app_assoc|]. by split.
Qed.

(** X3. The configuration that a successful run writes is the default
    one with four fields set: the name is the name of the legacy
    configuration that this run has read, which is what the reader returns
    in the state that the prologue of the run leaves; the listen address
    is the bind address of the environment, when there is one; the host key
    path is the copy under [ssh] in the data path, when the environment
    names a key; and the data path is the default one. *)
Theorem written_config_fields (fuel : nat) (s s' : state) :
  RunE fuel s = Some (Ok tt, s') →
  let w := world s in
  let keyPath := os_Getenv "SOFT_SERVE_KEY_PATH" w in
  let bindAddr := os_Getenv "SOFT_SERVE_BIND_ADDRESS" w in
  let default := config_DefaultConfig w in
  ∃ cfg0 s1 ocfg evs cfg,
    prologue s = Some (Ok cfg0, s1)
    ∧ readConfig (os_Getenv "SOFT_SERVE_REPO_PATH" w) s1 = Some (Ok ocfg, s1)
    ∧ trace s' = evs
        ++ [LogInfo "Writing config..." [];
            Called (WriteConfig
                      (filepath_Join [config.DataPath default; "config.yaml"])
                      cfg);
            LogInfo "Done!" []]
    ∧ config.Name cfg = Config.Name ocfg
    ∧ config.DataPath cfg = config.DataPath default
    ∧ config.ListenAddr (config.SSH cfg)
      = (if decide (bindAddr ≠ EmptyString) then bindAddr
         else config.ListenAddr (config.SSH default))
    ∧ config.KeyPath (config.SSH cfg)
      = (if decide (keyPath ≠ EmptyString)
         then filepath_Join [config.DataPath default; "ssh";
                             filepath_Base keyPath]
         else config.KeyPath (config.SSH default)).
Proof.
  intros Hrun w keyPath bindAddr default.
  apply RunE_cases in Hrun. cbv zeta in Hrun.
  destruct Hrun as [(e0 & _ & [=] & _)
                   |[(e0 & evs & [=] & _)
                    |(ocfg & cfg0 & s1 & evs1 & rm & sm & Hpro & Hread & _
                      & _ & _ & [(e0 & _ & [=] & _)|(_ & _ & ->)])]].
  assert (config.DataPath (targetConfig w ocfg) = config.DataPath default)
    as Hdata.
  { unfold targetConfig. fold w keyPath bindAddr default.
    by destruct (decide (bindAddr ≠ _)), (decide (keyPath ≠ _)). }
  exists cfg0, s1, ocfg, (trace sm), (targetConfig w ocfg).
  split; [exact Hpro|]. split; [exact Hread|]. split.
  { cbn [trace]. fold w. by rewrite Hdata. }
  split; [done|]. split; [exact Hdata|].
  unfold targetConfig. fold w keyPath bindAddr default.
  by destruct (decide (bindAddr ≠ _)), (decide (keyPath ≠ _)).
Qed.

(** X4. The first thing a run does is the initialisation of the backend,
    with the default configuration, and it does it once.  Every other
    call of the run comes after the legacy configuration has been read and
    decoded: either the run issues no other call, or its prologue has
    succeeded and the reader, in the state that the prologue leaves, has
    returned a legacy configuration.  A run that cannot read it leaves the
    backend empty. *)
Theorem backend_untouched_until_config_read (fuel : nat) (s : state)
    (r : result unit) (s' : state) :
  RunE fuel s = Some (r, s') →
  ∃ evs,
    trace s' = trace s
      ++ Called (NewSqliteBackend (config_DefaultConfig (world s))) :: evs
    ∧ Forall (λ c, isNewSqliteBackend c = false) (calls evs)
    ∧ (calls evs = []
       ∨ ∃ cfg0 s1 ocfg,
           prologue s = Some (Ok cfg0, s1)
           ∧ readConfig (os_Getenv "SOFT_SERVE_REPO_PATH" (world s)) s1
             = Some (Ok ocfg, s1)).
Proof.
  intros Hrun. apply RunE_cases in Hrun. cbv zeta in Hrun.
  destruct Hrun as [(e0 & _ & -> & ->)
                   |[(e0 & evs & -> & _ & Htr & Hcalls)
                    |(ocfg & cfg0 & s1 & evs1 & rm & sm & Hpro & Hread
                      & Htr1 & Hcalls1 & Hmig & Hend)]].
  - exists []. split; [done|]. split; [by constructor|by left].
  - exists evs. split; [exact Htr|]. rewrite Hcalls.
    split; [by constructor|by left].
  - apply (emits_migrate_calls (λ c, isNewSqliteBackend c = false)) in Hmig
      as (evm & Htrm & Hallm); [|done].
    apply Forall_calls in Hallm.
    destruct Hend as [(e0 & _ & -> & ->)|(_ & _ & ->)].
    + exists (evs1 ++ evm). split.
      { by rewrite Htrm, Htr1, <- app_assoc. }
      split; [by rewrite calls_app, Hcalls1|].
      right. by exists cfg0, s1, ocfg.
    + eexists. split.
      { cbn [trace]. rewrite Htrm, Htr1, <- !app_assoc.
        rewrite <- app_comm_cons. done. }
      split; [|right; by exists cfg0, s1, ocfg].
      rewrite !calls_app, Hcalls1. cbn [app].
      apply Forall_app. split; [done|]. by repeat constructor.
Qed.

End WholeRun.

(** ** The public URL *)

Section PublicURL.
Context {P : Platform}.

(** C9. The public URL of the target configuration is
    [fmt.Sprintf("ssh://%s:%d", host, port)], which is [ssh://], the host,
    a colon and the decimal numeral of the port; host [example.com] and
    port [2222] give [ssh://example.com:2222].  This is the URL in the
    configuration that [migrate] returns.  A successful run has run its
    prologue, has read the legacy configuration in the state that the
    prologue leaves, has migrated it, and ends with the call of the writer
    on a configuration with this URL, for the host and the port it has
    read; and once these three steps have succeeded the run does call the
    writer on that configuration.  On a platform of bounded depth, with
    fuel above every rank, the migration and the run return. *)
Theorem public_url_of_host_and_port (fuel : nat) (s : state) :
  (∀ host port,
     Sprintf "ssh://%s:%d" [AStr host; AInt port]
     = "ssh://" +:+ host +:+ ":" +:+ Itoa port
     ∧ Z.of_int <$> NilZero.int_of_string (Itoa port) = Some port)
  ∧ Sprintf "ssh://%s:%d" [AStr "example.com"; AInt 2222]
    = "ssh://example.com:2222"
  ∧ (∀ reposPath cfg ocfg cfg' s',
       migrate fuel reposPath cfg ocfg s = Some (Ok cfg', s') →
       config.PublicURL (config.SSH cfg')
       = "ssh://" +:+ Config.Host ocfg +:+ ":" +:+ Itoa (Config.Port ocfg))
  ∧ (∀ s', RunE fuel s = Some (Ok tt, s') →
       ∃ cfg0 s1 ocfg cfg sm,
         prologue s = Some (Ok cfg0, s1)
         ∧ readConfig (os_Getenv "SOFT_SERVE_REPO_PATH" (world s)) s1
           = Some (Ok ocfg, s1)
         ∧ migrate fuel (os_Getenv "SOFT_SERVE_REPO_PATH" (world s))
             cfg0 ocfg s1 = Some (Ok cfg, sm)
         ∧ trace s' = trace sm
             ++ [LogInfo "Writing config..." [];
                 Called (WriteConfig
                           (filepath_Join
                              [config.DataPath cfg; "config.yaml"])
                           cfg);
                 LogInfo "Done!" []]
         ∧ config.PublicURL (config.SSH cfg)
           = "ssh://" +:+ Config.Host ocfg +:+ ":"
             +:+ Itoa (Config.Port ocfg))
  ∧ (∀ cfg0 s1 ocfg cfg sm,
       prologue s = Some (Ok cfg0, s1) →
       readConfig (os_Getenv "SOFT_SERVE_REPO_PATH" (world s)) s1
       = Some (Ok ocfg, s1) →
       migrate fuel (os_Getenv "SOFT_SERVE_REPO_PATH" (world s))
         cfg0 ocfg s1 = Some (Ok cfg, sm) →
       ∃ r s',
         RunE fuel s = Some (r, s')
         ∧ trace s' = trace sm
             ++ [LogInfo "Writing config..." [];
                 Called (WriteConfig
                           (filepath_Join
                              [config.DataPath cfg; "config.yaml"])
                           cfg);
                 LogInfo "Done!" []]
         ∧ config.PublicURL (config.SSH cfg)
           = "ssh://" +:+ Config.Host ocfg +:+ ":"
             +:+ Itoa (Config.Port ocfg))
  ∧ (∀ B : BoundedDepth P,
       (∀ p, (rank p < fuel)%nat) →
       (∀ reposPath cfg ocfg, returns (migrate fuel reposPath cfg ocfg))
       ∧ returns (RunE fuel)).
Proof.
  assert (∀ reposPath cfg ocfg cfg' s0 s',
            migrate fuel reposPath cfg ocfg s0 = Some (Ok cfg', s') →
            config.PublicURL (config.SSH cfg')
            = "ssh://" +:+ Config.Host ocfg +:+ ":"
              +:+ Itoa (Config.Port ocfg)) as Hurl.
  { intros reposPath cfg ocfg cfg' s0 s' ->%migrate_cfg.
    cbn [config.with_PublicURL config.PublicURL config.SSH].
    apply Sprintf_ssh_url. }
  split; [|split; [|split; [|split; [|split]]]].
  - intros host port. split; [apply Sprintf_ssh_url|apply Itoa_decimal].
  - reflexivity.
  - intros reposPath cfg ocfg cfg' s'. apply Hurl.
  - intros s' Hrun. apply RunE_cases in Hrun. cbv zeta in Hrun.
    destruct Hrun as [(e0 & _ & [=] & _)
                     |[(e0 & evs & [=] & _)
                      |(ocfg & cfg0 & s1 & evs1 & rm & sm & Hpro & Hread & _
                        & _ & Hmig & [(e0 & _ & [=] & _)|(-> & _ & ->)])]].
    exists cfg0, s1, ocfg, (targetConfig (world s) ocfg), sm.
    split; [exact Hpro|]. split; [exact Hread|]. split; [exact Hmig|].
    split; [done|]. by eapply Hurl.
  - intros cfg0 s1 ocfg cfg sm Hpro Hread Hmig.
    pose proof (RunE_writes fuel s cfg0 s1 ocfg cfg sm) as Hrun.
    cbv zeta in Hrun. specialize (Hrun Hpro Hread Hmig).
    eexists _, _. split; [exact Hrun|]. split; [done|]. by eapply Hurl.
  - intros B Hrank. split.
    + intros reposPath cfg ocfg. by apply returns_migrate.
    + by apply returns_RunE.
Qed.

End PublicURL.

(** ** The phases that cannot fail, and the host key *)

Section Phases2.
Context {P : Platform}.

(** X5. The host key phase.  Without a key path in the environment it
    does nothing.  With one, once the [ssh] directory is made: a failed
    copy of the private key ends the run with "failed to copy ssh key", and
    the public key is not tried; after the private key is copied, the copy
    of the public key may fail, which is logged, and the phase returns all
    the same the configuration whose key path is the copy. *)
Theorem host_key_public_half_best_effort (keyPath : string)
    (cfg : config.Config) (s : state) :
  let key := filepath_Join [config.DataPath cfg; "ssh";
                            filepath_Base keyPath] in
  (keyPath = EmptyString → copySSHHostKey keyPath cfg s = Some (Ok cfg, s))
  ∧ (keyPath ≠ EmptyString →
     ∀ s1,
       sys (os_MkdirAll (filepath_Join [config.DataPath cfg; "ssh"]) 448) s
       = Some (Ok tt, s1) →
       (∀ e s2, copyFile keyPath key s1 = Some (Err e, s2) →
          copySSHHostKey keyPath cfg s
          = Some (Err (wrapError "failed to copy ssh key: " e), s2))
       ∧ (∀ s2 r s3,
            copyFile keyPath key s1 = Some (Ok tt, s2) →
            copyFile (keyPath +:+ ".pub") (key +:+ ".pub") s2
            = Some (r, s3) →
            copySSHHostKey keyPath cfg s
            = Some (Ok (config.with_KeyPath cfg key),
                    mkState (world s3)
                      (trace s3
                       ++ failureLog r
                            (λ err, LogError "failed to copy ssh key: %s"
                                      [AErr err]))))).
Proof.
  intros key. unfold copySSHHostKey. split.
  - intros ->. by rewrite decide_False by (by intros []).
  - intros Hne s1 Hmk. rewrite decide_True by done. split.
    + intros e s2 Hcopy.
      erewrite bind_Ok; [|by apply orWrap_Ok].
      apply bind_Err. by apply orWrap_Err.
    + intros s2 r s3 Hpriv Hpub.
      erewrite bind_Ok; [|by apply orWrap_Ok].
      erewrite bind_Ok; [|by apply orWrap_Ok].
      unfold bind, onErr, bind, attempt. fold key. rewrite Hpub.
      destruct r as [[]|e]; cbn [failureLog].
      * unfold ret. rewrite app_nil_r. by destruct s3.
      * done.
Qed.

Lemma repoCollabs_run (repo : string) (collabs : list string) (s : state) :
  ∃ s' evs,
    forM_ collabs (λ collab,
      onErr (backend (AddCollaborator repo collab))
        (λ err, emit (LogError "failed to add repo collab to %s: %s"
                        [AStr repo; AErr err]))) s = Some (Ok tt, s')
    ∧ trace s' = trace s ++ evs
    ∧ calls evs = map (AddCollaborator repo) collabs.
Proof.
  revert s. induction collabs as [|collab collabs IH]; intros s.
  - exists s, []. by rewrite app_nil_r.
  - cbn [forM_]. erewrite bind_Ok; [|apply onErr_backend].
    edestruct IH as (s' & evs & -> & Htr & Hcalls).
    eexists _, _. split; [done|]. split.
    + rewrite Htr. cbn [trace]. by rewrite <- app_assoc.
    + rewrite calls_app, Hcalls, calls_Called, calls_failureLog by done.
      done.
Qed.

(** One turn of "Set repos metadata & collabs". *)
Lemma setRepoMetadata_run (repo : RepoConfig.t) (s : state) :
  ∃ s' evs,
    setRepoMetadata repo s = Some (Ok tt, s')
    ∧ trace s' = trace s ++ evs
    ∧ calls evs = repoCalls repo.
Proof.
  unfold setRepoMetadata.
  erewrite bind_Ok; [|apply onErr_backend].
  erewrite bind_Ok; [|apply onErr_backend].
  erewrite bind_Ok; [|apply onErr_backend].
  edestruct repoCollabs_run as (s' & evs & -> & Htr & Hcalls).
  eexists _, _. split; [done|]. split.
  - rewrite Htr. cbn [trace world]. by rewrite <- !app_assoc.
  - rewrite !calls_app, !calls_Called, !calls_failureLog, Hcalls by done.
    done.
Qed.

(** The loop of "Set repos metadata & collabs". *)
Lemma repo_metadata_phase (repos : list RepoConfig.t)
    (s : state) :
  ∃ s' evs,
    forM_ repos setRepoMetadata s = Some (Ok tt, s')
    ∧ trace s' = trace s ++ evs
    ∧ calls evs = flat_map repoCalls repos.
Proof.
  revert s. induction repos as [|repo repos IH]; intros s.
  - exists s, []. by rewrite app_nil_r.
  - cbn [forM_ flat_map].
    destruct (setRepoMetadata_run repo s) as (s1 & evs1 & H1 & Htr1 & Hc1).
    erewrite bind_Ok; [|exact H1].
    destruct (IH s1) as (s' & evs & -> & Htr & Hcalls).
    exists s', (evs1 ++ evs). split; [done|]. split.
    + by rewrite Htr, Htr1, app_assoc.
    + by rewrite calls_app, Hc1, Hcalls.
Qed.

(** X6. The phase "Set repos metadata & collabs" cannot fail, whatever the
    backend answers.  For every entry of the legacy configuration, in
    order, it issues the calls that set the name, the description and the
    privacy of the repository, then one [AddCollaborator] call for each of
    its collaborators, and it issues no other call. *)
Theorem repo_metadata_all_attempted (repos : list RepoConfig.t)
    (s : state) :
  ∃ s' evs,
    forM_ repos setRepoMetadata s = Some (Ok tt, s')
    ∧ trace s' = trace s ++ evs
    ∧ calls evs = flat_map repoCalls repos.
Proof. apply repo_metadata_phase. Qed.

Lemma createdUsers_app (cs1 cs2 : list (call PublicKey)) :
  createdUsers (cs1 ++ cs2) = createdUsers cs1 ++ createdUsers cs2.
Proof. apply omap_app. Qed.

Lemma addedCollabs_app (cs1 cs2 : list (call PublicKey)) :
  addedCollabs (cs1 ++ cs2) = addedCollabs cs1 ++ addedCollabs cs2.
Proof. apply omap_app. Qed.

Lemma createdUsers_collabs (username : string) (repos : list string) :
  createdUsers (PK := PublicKey)
    (map (λ repo, AddCollaborator repo username) repos) = [].
Proof. by induction repos. Qed.

Lemma addedCollabs_collabs (username : string) (repos : list string) :
  addedCollabs (PK := PublicKey)
    (map (λ repo, AddCollaborator repo username) repos)
  = map (λ repo, (repo, username)) repos.
Proof.
  induction repos as [|repo repos IH]; [done|].
  cbn. unfold addedCollabs in IH. by rewrite IH.
Qed.

(** The loop of "Create users & collabs". *)
Lemma users_phase (users : list User.t) (s : state) :
  ∃ s' evs,
    forM_ users createUser s = Some (Ok tt, s')
    ∧ trace s' = trace s ++ evs
    ∧ createdUsers (calls evs) = map usernameOf users
    ∧ addedCollabs (calls evs)
      = flat_map (λ user, map (λ repo, (repo, usernameOf user))
                            (User.CollabRepos user)) users.
Proof.
  revert s. induction users as [|user users IH]; intros s.
  - exists s, []. by rewrite app_nil_r.
  - cbn [forM_ flat_map map].
    destruct (createUser_calls user s)
      as (s1 & evs1 & H1 & Htr1 & _ & _ & Hc1).
    erewrite bind_Ok; [|exact H1].
    destruct (IH s1) as (s' & evs & -> & Htr & Hcreated & Hadded).
    exists s', (evs1 ++ evs). split; [done|]. split.
    { by rewrite Htr, Htr1, app_assoc. }
    rewrite calls_app, createdUsers_app, addedCollabs_app, Hc1.
    rewrite Hcreated, Hadded. split.
    + cbn. change (omap _ ?l) with (createdUsers l).
      by rewrite createdUsers_collabs.
    + cbn. change (omap _ ?l) with (addedCollabs l).
      by rewrite addedCollabs_collabs.
Qed.

(** X7. The phase "Create users & collabs" cannot fail, whatever the
    backend answers.  It asks for one user per legacy user, in order, under
    the normalized names, and for every collaboration that the legacy
    users declare, in order, under those names. *)
Theorem users_all_attempted (users : list User.t) (s : state) :
  ∃ s' evs,
    forM_ users createUser s = Some (Ok tt, s')
    ∧ trace s' = trace s ++ evs
    ∧ createdUsers (calls evs) = map usernameOf users
    ∧ addedCollabs (calls evs)
      = flat_map (λ user, map (λ repo, (repo, usernameOf user))
                            (User.CollabRepos user)) users.
Proof. apply users_phase. Qed.

(** X8. Without a storage root in the environment the migration of a
    legacy configuration cannot fail: whatever the backend answers to the
    settings, metadata, user and collaboration calls, [migrate] returns the
    target configuration, with any fuel. *)
Theorem migrate_without_storage_root_succeeds (fuel : nat)
    (cfg : config.Config) (ocfg : Config.t) (s : state) :
  ∃ s',
    migrate fuel EmptyString cfg ocfg s
    = Some (Ok (config.with_PublicURL
                  (config.with_Name cfg (Config.Name ocfg))
                  (Sprintf "ssh://%s:%d"
                     [AStr (Config.Host ocfg); AInt (Config.Port ocfg)])),
            s').
Proof.
  unfold migrate.
  erewrite bind_Ok; [|apply setServerSettings_run].
  erewrite bind_Ok;
    [|by unfold copyRepos; rewrite decide_False by (by intros [])].
  rewrite bind_emit.
  edestruct repo_metadata_phase as (s1 & evs1 & H1 & _).
  erewrite bind_Ok; [|exact H1]. rewrite bind_emit.
  edestruct users_phase as (s2 & evs2 & H2 & _).
  erewrite bind_Ok; [|exact H2]. by eexists.
Qed.

End Phases2.

(** ** The import loop, and the copier's trace *)

Section Import2.
Context {P : Platform}.

Lemma Forall_Println (evs : list (event PublicKey)) :
  Forall (λ ev, ∃ e, ev = Println e) evs → ∃ errs, evs = map Println errs.
Proof.
  induction 1 as [|ev evs [e ->] _ [errs ->]].
  - by exists [].
  - by exists (e :: errs).
Qed.

Lemma calls_Println (errs : list error) :
  calls (PK := PublicKey) (map Println errs) = [].
Proof. by induction errs. Qed.

Lemma copyDir_prints (fuel : nat) (src dst : string) (s : state) r s' :
  copyDir fuel src dst s = Some (r, s') →
  ∃ errs, trace s' = trace s ++ map Println errs.
Proof.
  intros H.
  apply (emits_copyDir (λ ev, ∃ e, ev = Println e)) in H
    as (evs & Htr & [errs ->]%Forall_Println); [|by eexists].
  by exists errs.
Qed.

Lemma copyFile_trace (src dst : string) (s : state) r s' :
  copyFile src dst s = Some (r, s') → trace s' = trace s.
Proof.
  intros H. apply (emits_copyFile (λ _, False)) in H as (evs & Htr & Hall).
  destruct Hall as [|ev evs []]. by rewrite app_nil_r in Htr.
Qed.

(** X9. The copier and the file copy never call the backend and never
    log.  The file copy leaves the trace as it is; the copier only adds
    the errors that it prints. *)
Theorem copier_only_prints (fuel : nat) (src dst : string) (s : state) :
  (∀ r s', copyFile src dst s = Some (r, s') → trace s' = trace s)
  ∧ (∀ r s', copyDir fuel src dst s = Some (r, s') →
       ∃ errs, trace s' = trace s ++ map Println errs).
Proof.
  split.
  - intros r s'. apply copyFile_trace.
  - intros r s'. apply copyDir_prints.
Qed.

(** A turn of the import loop that skips its entry. *)
Lemma copyRepo_skip (fuel : nat) (reposPath : string) (cfg : config.Config)
    (dir : DirEntry) (s : state) :
  de_IsDir dir = false
  ∨ isGitDir (filepath_Join [reposPath; de_Name dir]) (world s) = false →
  copyRepo fuel reposPath cfg dir s = Some (Ok tt, s).
Proof.
  unfold copyRepo. intros [->|Hgit]; [done|].
  destruct (de_IsDir dir); [|done]. cbn [negb].
  by rewrite bind_read, Hgit.
Qed.

(** X10. The import skips what is no repository.  Without a storage root
    in the environment it does nothing.  A storage root that cannot be
    listed ends the run.  An entry of the root that is no directory, or a
    directory that fails the git directory check, is passed over: nothing
    is copied, called or logged for it. *)
Theorem import_skips_non_repositories (fuel : nat) (reposPath : string)
    (cfg : config.Config) (s : state) :
  copyRepos fuel EmptyString cfg s = Some (Ok tt, s)
  ∧ (reposPath ≠ EmptyString →
     ∀ e, os_ReadDir reposPath (world s) = Err e →
       copyRepos fuel reposPath cfg s
       = Some (Err (wrapError "failed to read repos directory: " e),
               record (LogInfo "Copying repos..." []) s))
  ∧ (∀ dir rest,
       de_IsDir dir = false
       ∨ isGitDir (filepath_Join [reposPath; de_Name dir]) (world s) = false →
       forM_ (dir :: rest) (copyRepo fuel reposPath cfg) s
       = forM_ rest (copyRepo fuel reposPath cfg) s).
Proof.
  split; [|split].
  - unfold copyRepos. by rewrite decide_False by (by intros []).
  - intros Hne e He. unfold copyRepos. rewrite decide_True by done.
    rewrite bind_emit. apply bind_Err, orWrap_Err.
    rewrite peek_run. unfold record at 1. cbn [world]. by rewrite He.
  - intros dir rest Hskip. cbn [forM_].
    by erewrite bind_Ok; [|by apply copyRepo_skip].
Qed.

(** What a turn of the import loop calls: nothing, or the registration of
    its entry. *)
Lemma copyRepo_calls (fuel : nat) (reposPath : string)
    (cfg : config.Config) (dir : DirEntry) (s : state) r s' :
  copyRepo fuel reposPath cfg dir s = Some (r, s') →
  ∃ evs, trace s' = trace s ++ evs
    ∧ (calls evs = []
       ∨ (de_IsDir dir = true
          ∧ isGitDir (filepath_Join [reposPath; de_Name dir]) (world s)
            = true
          ∧ r = Ok tt
          ∧ calls evs = [CreateRepository (de_Name dir)])).
Proof.
  destruct (de_IsDir dir) eqn:Hdir.
  2:{ rewrite copyRepo_skip by (by left). intros [= <- <-].
      exists []. rewrite app_nil_r. by split; [|left]. }
  destruct (isGitDir (filepath_Join [reposPath; de_Name dir]) (world s))
    eqn:Hgit.
  2:{ rewrite copyRepo_skip by (by right). intros [= <- <-].
      exists []. rewrite app_nil_r. by split; [|left]. }
  unfold copyRepo. rewrite Hdir. cbn [negb]. rewrite bind_read, Hgit.
  cbn [negb]. rewrite bind_emit. intros H.
  apply bind_inv in H as [([] & s1 & Hmk & H)|(e & Hmk & ->)].
  2:{ apply (emits_orWrap (λ _, False)) in Hmk as (evs & Htr & Hall);
        [|apply emits_sys].
      destruct Hall as [|ev evs []]. rewrite app_nil_r in Htr.
      eexists. split; [exact Htr|]. by left. }
  assert (trace s1 = trace s ++ [LogInfo "  Copying repo %s"
                                   [AStr (de_Name dir)]]) as Htr1.
  { apply (emits_orWrap (λ _, False)) in Hmk as (evs & Htr & Hall);
      [|apply emits_sys].
    destruct Hall as [|ev evs []]. by rewrite app_nil_r in Htr. }
  apply bind_inv in H as [([] & s2 & Hcopy & H)|(e & Hcopy & ->)].
  2:{ unfold orWrap in Hcopy.
      destruct (copyDir _ _ _ s1) as [[[[]|e0] s2]|] eqn:Hc; try done.
      injection Hcopy as _ <-.
      apply copyDir_prints in Hc as [errs Htr].
      eexists. split; [by rewrite Htr, Htr1, <- app_assoc|]. left.
      by rewrite ?calls_app, ?calls_LogInfo, ?calls_nil, ?calls_Println. }
  unfold orWrap in Hcopy.
  destruct (copyDir _ _ _ s1) as [[[[]|e0] s2']|] eqn:Hc; try done.
  injection Hcopy as <-.
  apply copyDir_prints in Hc as [errs Htr].
  rewrite onErr_backend in H. injection H as <- <-.
  eexists. split.
  { cbn [trace]. by rewrite Htr, Htr1, <- !app_assoc. }
  right. split; [done|]. split; [done|]. split; [done|].
  rewrite ?calls_app, ?calls_LogInfo, ?calls_nil, ?calls_Println,
    ?calls_Called, ?calls_failureLog by done.
  done.
Qed.

Lemma copyRepo_loop_calls (fuel : nat) (reposPath : string)
    (cfg : config.Config) (dirs : list DirEntry) (s : state) r s' :
  forM_ dirs (copyRepo fuel reposPath cfg) s = Some (r, s') →
  ∃ evs ds, trace s' = trace s ++ evs
    ∧ calls evs = map (λ d, CreateRepository (de_Name d)) ds
    ∧ sublist ds (filter (λ d, de_IsDir d = true) dirs).
Proof.
  revert s. induction dirs as [|dir dirs IH]; intros s H.
  - injection H as <- <-. exists [], []. by rewrite app_nil_r.
  - cbn [forM_] in H.
    apply bind_inv in H as [([] & s1 & Hdir & H)|(e & Hdir & ->)].
    + apply copyRepo_calls in Hdir as (evs1 & Htr1 & Hc1).
      apply IH in H as (evs & ds & Htr & Hcalls & Hsub).
      destruct Hc1 as [Hc1|(Hd & _ & _ & Hc1)].
      * exists (evs1 ++ evs), ds. split; [by rewrite Htr, Htr1, app_assoc|].
        split; [by rewrite calls_app, Hc1|].
        rewrite filter_cons. destruct (decide _); [|done].
        by apply sublist_cons.
      * exists (evs1 ++ evs), (dir :: ds).
        split; [by rewrite Htr, Htr1, app_assoc|].
        split; [by rewrite calls_app, Hc1, Hcalls|].
        rewrite filter_cons_True by done. by apply sublist_skip.
    + apply copyRepo_calls in Hdir as (evs1 & Htr1 & [Hc1|(_ & _ & [=] & _)]).
      exists evs1, []. split; [done|]. split; [done|].
      apply sublist_nil_l.
Qed.

(** X11. The import registers only what the storage root lists.  The
    calls of the import phase are [CreateRepository] calls, under the names
    of directory entries of the storage root, in the order of the listing
    and at most one for each entry. *)
Theorem import_registers_listed_directories (fuel : nat)
    (reposPath : string) (cfg : config.Config) (s : state)
    (r : result unit) (s' : state) :
  copyRepos fuel reposPath cfg s = Some (r, s') →
  ∃ evs ds,
    trace s' = trace s ++ evs
    ∧ calls evs = map (λ d, CreateRepository (de_Name d)) ds
    ∧ (ds = []
       ∨ ∃ dirs, os_ReadDir reposPath (world s) = Ok dirs
                 ∧ sublist ds (filter (λ d, de_IsDir d = true) dirs)).
Proof.
  unfold copyRepos. destruct (decide _) as [Hne|_].
  2:{ intros [= <- <-]. exists [], []. rewrite app_nil_r. by auto. }
  rewrite bind_emit. intros H.
  apply bind_inv in H as [(dirs & s1 & Hread & H)|(e & Hread & ->)].
  - unfold orWrap in Hread. rewrite peek_run in Hread.
    unfold record in Hread at 1. cbn [world] in Hread.
    destruct (os_ReadDir reposPath (world s)) as [dirs'|e] eqn:Hdirs;
      [|done].
    injection Hread as <- <-.
    apply copyRepo_loop_calls in H as (evs & ds & Htr & Hcalls & Hsub).
    eexists _, ds. split.
    { rewrite Htr. cbn [record trace]. by rewrite <- app_assoc. }
    split; [done|]. right. by exists dirs'.
  - unfold orWrap in Hread. rewrite peek_run in Hread.
    destruct (os_ReadDir _ _); [done|]. injection Hread as _ <-.
    eexists _, []. split; [done|]. by auto.
Qed.

(** X13. The file copy closes what it has opened, on every path, the
    destination before the source: when the source cannot be opened
    nothing else is done; when the destination cannot be created the source
    is closed; after that both are closed, whether the copy, the [Stat] or
    the [Chmod] fails or not. *)
Theorem copyFile_closes_what_it_opens (src dst : string) (s : state)
    (r : result unit) (s' : state) :
  copyFile src dst s = Some (r, s') →
  trace s' = trace s
  ∧ match os_Open src (world s) with
    | (Err e, w1) => r = Err e ∧ world s' = w1
    | (Ok srcfd, w1) =>
        match os_Create dst w1 with
        | (Err e, w2) => r = Err e ∧ world s' = file_Close srcfd w2
        | (Ok dstfd, w2) =>
            ∃ w3, world s' = file_Close srcfd (file_Close dstfd w3)
        end
    end.
Proof.
  intros H. split; [by eapply copyFile_trace|]. revert H.
  unfold copyFile, bind, defer, sys, peek, close.
  destruct (os_Open src (world s)) as [[srcfd|e] w1]; cbn [world trace];
    [|by intros [= <- <-]].
  destruct (os_Create dst w1) as [[dstfd|e] w2]; cbn [world trace];
    [|by intros [= <- <-]].
  destruct (io_Copy dstfd srcfd w2) as [[n|e] w3]; cbn [world trace];
    [|intros [= <- <-]; by eexists].
  destruct (os_Stat src w3) as [srcinfo|e]; [|intros [= <- <-]; by eexists].
  destruct (os_Chmod dst (fi_Mode srcinfo) w3) as [r4 w4].
  intros [= <- <-]. by eexists.
Qed.

End Import2.

(** ** More on the keys and the name of a user *)

Section Users2.
Context {P : Platform}.

Lemma collectKeys_snoc (keys : list string) (key : string) :
  collectKeys (keys ++ [key]) = addKey (collectKeys keys) key.
Proof. unfold collectKeys. by rewrite foldl_app. Qed.

(** X14. In the key map of a user the entry under a canonical form is the
    key parsed from the last key string of that form: a later copy of a
    key replaces an earlier one, and a form that no key string has is not
    in the map. *)
Theorem keys_entry_is_last_parsed (keys : list string) (ak : string) :
  collectKeys keys !! ak = last (parsedAs ak keys).
Proof.
  induction keys as [|key keys IH] using rev_ind.
  - unfold collectKeys. cbn [foldl parsedAs omap last]. apply lookup_empty.
  - rewrite collectKeys_snoc. unfold parsedAs. rewrite omap_app.
    fold (parsedAs ak keys). unfold addKey. cbn [omap list_omap].
    destruct (backend_ParseAuthorizedKey key) as [pk|e].
    + destruct (decide (backend_MarshalAuthorizedKey pk = ak)) as [Heq|Hne].
      * subst ak. by rewrite lookup_insert_eq, last_snoc.
      * by rewrite lookup_insert_ne, app_nil_r.
    + by rewrite app_nil_r.
Qed.

Lemma foldl_addKey_size (keys : list string) (m : gmap string PublicKey) :
  (size (foldl addKey m keys)
   ≤ size m
     + length (filter (λ raw, is_Ok (backend_ParseAuthorizedKey raw) = true)
                 keys))%nat.
Proof.
  revert m. induction keys as [|key keys IH]; intros m; [simpl; lia|].
  cbn [foldl]. rewrite filter_cons. etrans; [apply IH|].
  unfold addKey. destruct (backend_ParseAuthorizedKey key) as [pk|e];
    cbn [is_Ok].
  - rewrite decide_True by done. cbn [length].
    destruct (m !! backend_MarshalAuthorizedKey pk) eqn:Hm.
    + rewrite map_size_insert_Some by done. lia.
    + rewrite map_size_insert_None by done. lia.
  - rewrite decide_False by done. lia.
Qed.

(** X15. A user is never given more keys than the legacy record has key
    strings that parse. *)
Theorem pubkeys_no_more_than_parsed (user : User.t) (w : World) :
  (length (pubkeysOf user w)
   ≤ length (filter (λ raw, is_Ok (backend_ParseAuthorizedKey raw) = true)
               (User.PublicKeys user))
   ≤ length (User.PublicKeys user))%nat.
Proof.
  split.
  - rewrite pubkeysOf_Permutation, length_fmap, length_map_to_list.
    etrans; [apply foldl_addKey_size|]. by rewrite map_size_empty.
  - apply length_filter.
Qed.

(** the byte that [usernameOf] puts in the place of an ASCII byte *)
Lemma normalize_byte (c : ascii) :
  isASCIIByte c = true →
  let c' := hyphenate (toLowerByte c) in
  isASCIIByte c' = true ∧ isUpperByte c' = false
  ∧ Ascii.eqb c' " " = false ∧ hyphenate (toLowerByte c') = c'.
Proof.
  destruct c as [[|] [|] [|] [|] [|] [|] [|] [|]]; intros H;
    first [discriminate H | by vm_compute].
Qed.

Lemma string_map_length (f : ascii → ascii) (s : string) :
  String.length (string_map f s) = String.length s.
Proof. induction s as [|c s IH]; [done|]. simpl. by rewrite IH. Qed.

Lemma normalize_string (name : string) :
  string_forallb isASCIIByte name = true →
  let u := string_map (λ c, hyphenate (toLowerByte c)) name in
  string_forallb isASCIIByte u = true
  ∧ string_existsb isUpperByte u = false
  ∧ string_existsb (λ c, Ascii.eqb c " ") u = false
  ∧ string_map (λ c, hyphenate (toLowerByte c)) u = u.
Proof.
  induction name as [|c name IH]; [done|]. cbn [string_forallb].
  intros [Hc Hname]%andb_true_iff.
  destruct (IH Hname) as (H1 & H2 & H3 & H4).
  destruct (normalize_byte c Hc) as (B1 & B2 & B3 & B4).
  cbn [string_map string_forallb string_existsb].
  rewrite B1, B2, B3, B4, H1, H2, H3, H4. done.
Qed.

(** X16. On an ASCII legacy name the user name has as many bytes as the
    legacy name, has no upper case letter and no blank, and is a fixed
    point: a legacy name that is already normalized is the user name. *)
Theorem username_normal_form (user : User.t) :
  string_forallb isASCIIByte (User.Name user) = true →
  let u := usernameOf user in
  String.length u = String.length (User.Name user)
  ∧ string_existsb isUpperByte u = false
  ∧ string_existsb (λ c, Ascii.eqb c " ") u = false
  ∧ usernameOf (User.mk u (User.Admin user) (User.PublicKeys user)
                  (User.CollabRepos user)) = u.
Proof.
  intros Hascii u.
  assert (u = string_map (λ c, hyphenate (toLowerByte c)) (User.Name user))
    as Hu.
  { unfold u, usernameOf.
    by rewrite ReplaceAll_space, strings_ToLower_ASCII,
         string_map_compose. }
  destruct (normalize_string _ Hascii) as (H1 & H2 & H3 & H4).
  rewrite <- Hu in H1, H2, H3, H4.
  split; [by rewrite Hu, string_map_length|].
  split; [done|]. split; [done|].
  unfold usernameOf. cbn [User.Name].
  by rewrite ReplaceAll_space, strings_ToLower_ASCII, string_map_compose.
Qed.

(** X18. Which keys a user gets does not depend on the order of the key
    strings in the legacy record, nor on the order in which the key map is
    visited: two records with the same key strings, in any order, give the
    same canonical forms, each once. *)
Theorem key_forms_ignore_order (user1 user2 : User.t) (w1 w2 : World) :
  User.PublicKeys user1 ≡ₚ User.PublicKeys user2 →
  backend_MarshalAuthorizedKey <$> pubkeysOf user1 w1
  ≡ₚ backend_MarshalAuthorizedKey <$> pubkeysOf user2 w2.
Proof.
  intros Hperm. apply NoDup_Permutation; [apply pubkeysOf_NoDup..|].
  intros ak. rewrite !pubkeysOf_forms.
  split; intros (raw & pk & Hin & Hparse);
    exists raw, pk; (split; [|done]).
  - by rewrite <- Hperm.
  - by rewrite Hperm.
Qed.

End Users2.


(** ** The statements at work *)



(** C2 as the specification words it fails on [Example.populated].  The [CreateUser]
    call for the second [jane-doe] fails, and the [AddCollaborator] call for
    her repository [b] is issued all the same. *)
Lemma collabs_not_skipped_after_failed_creation :
  (backend_do (Platform := Example.platform)
     (CreateUser "jane-doe" (mkUserOptions false []))
     Example.populated).1
  = Err (errorString "UNIQUE constraint failed: user.username")
  ∧ Example.summary
      (createUser (P := Example.platform) Example.janeAgain
         (Example.start Example.populated))
    = Some (Ok tt,
            [CreateUser "jane-doe" (mkUserOptions false []);
             AddCollaborator "b" "jane-doe"],
            [LogError "failed to create user: %s"
               [AErr (errorString "UNIQUE constraint failed: user.username")]]).
Proof.
  split; vm_compute; reflexivity.
Qed.

Lemma collabs_added_after_failed_creation_witness :
  ∃ s' evs,
    createUser (P := Example.platform) Example.janeAgain
      (Example.start Example.populated) = Some (Ok tt, s')
    ∧ trace s' = evs
    ∧ LogError "failed to create user: %s"
        [AErr (errorString "UNIQUE constraint failed: user.username")] ∈ evs
    ∧ AddCollaborator "b" "jane-doe" ∈ calls evs.
Proof.
  destruct (collabs_added_after_failed_creation (P := Example.platform)
              Example.janeAgain (Example.start Example.populated)
              (errorString "UNIQUE constraint failed: user.username") eq_refl)
    as (s' & evs & Hrun & Htr & Hlog & Hcalls).
  exists s', evs. split; [exact Hrun|]. split; [exact Htr|].
  split; [exact Hlog|]. rewrite Hcalls. right. left.
Defined.

(** C3 on the three key strings of [Example.jane]: two spellings of one key
    and a string that is no key leave one entry. *)
Lemma pubkeys_one_per_canonical_form_witness :
  NoDup (Mock.MarshalAuthorizedKey
           <$> pubkeysOf (P := Example.platform) Example.jane Example.legacy)
  ∧ pubkeysOf (P := Example.platform) Example.jane Example.legacy
    = [("ssh-ed25519", "AAAA")].
Proof.
  split; [|by vm_compute].
  exact (proj1 (proj2 (pubkeys_one_per_canonical_form (P := Example.platform)
                         Example.jane (Example.start Example.legacy)))).
Defined.

(** C4 on [Example.janeAgain], whose only key string does not parse. *)
Lemma unparsed_keys_skipped_witness :
  pubkeysOf (P := Example.platform) Example.janeAgain Example.legacy = []
  ∧ ∃ s' rest,
      createUser (P := Example.platform) Example.janeAgain
        (Example.start Example.legacy) = Some (Ok tt, s')
      ∧ trace s'
        = LogInfo "Creating user %q" [AStr "jane-doe"]
          :: Called (CreateUser "jane-doe" (mkUserOptions false []))
          :: rest.
Proof.
  pose proof (unparsed_keys_skipped (P := Example.platform) Example.janeAgain
                (Example.start Example.legacy)) as (Hrun & _ & _ & Hempty).
  split.
  - apply Hempty. intros raw ->%list_elem_of_singleton. by vm_compute.
  - destruct Hrun as (s' & rest & Hrun & Htr). exists s', rest.
    split; [exact Hrun|]. rewrite Htr. by vm_compute.
Defined.

(** C5 on [Example.jane]. *)
Lemma username_lowercase_hyphens_witness :
  usernameOf (P := Example.platform) Example.jane = "jane-doe".
Proof.
  exact (proj2 (proj2 (proj2 (username_lowercase_hyphens
                                (P := Example.platform) Example.jane
                                (Example.start Example.legacy)))) eq_refl).
Defined.

(** C6 on [Example.legacy], whose tree has both entries: the document read
    is the YAML one. *)
Lemma configEntry_yaml_first_witness :
  readConfig (P := Example.platform) "repos" (Example.start Example.legacy)
  = Some (Ok Example.yamlDoc, Example.start Example.legacy).
Proof.
  exact (proj1 (proj2 (proj2 (proj2 (proj2
           (configEntry_yaml_first (P := Example.platform) Example.tree
              (Example.start Example.legacy))))))
           "repos" tt tt [x79] [x79] eq_refl eq_refl eq_refl eq_refl eq_refl).
Defined.

(** C7 on [Example.legacy]: [repos/a] is a git directory, [repos], which
    has neither entry, is not. *)
Lemma isGitDir_objects_and_HEAD_witness :
  isGitDir (P := Example.platform) "repos/a" Example.legacy = true
  ∧ isGitDir (P := Example.platform) "repos" Example.legacy = false.
Proof.
  split.
  - apply (proj1 (isGitDir_objects_and_HEAD (P := Example.platform)
                    "repos/a" Example.legacy)).
    split; [exists (mkFileInfo true 493)|exists (mkFileInfo false 420)];
      by vm_compute.
  - by vm_compute.
Defined.

(** C8 on [Example.obstructed]: the copy of [b] cannot write [HEAD]; the
    error is printed, [objects] is copied after it, and the copier returns
    success. *)
Lemma copyDir_fails_only_at_top_witness :
  (∃ r s', copyDir (P := Example.platform) 17 "repos/b" "data/repos/b.git"
             (Example.start Example.obstructed) = Some (r, s'))
  ∧ ∃ s',
      copyDir (P := Example.platform) 17 "repos/b" "data/repos/b.git"
        (Example.start Example.obstructed) = Some (Ok tt, s')
      ∧ trace s'
        = [Println (errorString "open data/repos/b.git/HEAD: is a directory")]
      ∧ Mock.Stat "data/repos/b.git/objects/pack/p1" (world s')
        = Ok (mkFileInfo false 420).
Proof.
  split.
  - apply (proj2 (proj2 (proj2 (proj2
             (copyDir_fails_only_at_top (P := Example.platform) 16 "repos/b"
                "data/repos/b.git" (Example.start Example.obstructed)))))
             (mock_BoundedDepth Example.yamlDoc Example.jsonDoc)).
    vm_compute. lia.
  - eexists. split; [vm_compute; reflexivity|]. split; by vm_compute.
Defined.

(** C9 on the document of [config.yaml]: host [example.com] and port
    [2222], in the configuration that [migrate] returns.  Fuel 17 is above
    every rank of the platform in memory, so the run on [Example.legacy]
    returns; it succeeds, and the configuration it writes has that URL, for
    the host and the port that the reader returns after the prologue of this
    run. *)
Lemma public_url_of_host_and_port_witness :
  (∃ cfg s',
     migrate (P := Example.platform) 0 "" Mock.defaultConfig
       Example.yamlDoc (Example.start Example.populated) = Some (Ok cfg, s')
     ∧ config.PublicURL (config.SSH cfg) = "ssh://example.com:2222")
  ∧ (∀ p, (rank (BoundedDepth := mock_BoundedDepth Example.yamlDoc
                                   Example.jsonDoc) p < 17)%nat)
  ∧ returns (RunE (P := Example.platform) 17)
  ∧ (λ x, last x.1.2)
      <$> Example.summary
            (RunE (P := Example.platform) 17 (Example.start Example.legacy))
    = Some (Some (WriteConfig "data/config.yaml"
                    (config.mk "Legacy"
                       (config.mkSSH ":23231" "ssh/soft_serve_host"
                          "ssh://example.com:2222")
                       "data")))
  ∧ (∃ s' cfg0 s1 ocfg cfg sm,
       RunE (P := Example.platform) 17 (Example.start Example.legacy)
       = Some (Ok tt, s')
       ∧ prologue (P := Example.platform) (Example.start Example.legacy)
         = Some (Ok cfg0, s1)
       ∧ readConfig (P := Example.platform) "repos" s1 = Some (Ok ocfg, s1)
       ∧ migrate (P := Example.platform) 17 "repos" cfg0 ocfg s1
         = Some (Ok cfg, sm)
       ∧ trace s' = trace sm
           ++ [LogInfo "Writing config..." [];
               Called (WriteConfig
                         (Mock.Join [config.DataPath cfg; "config.yaml"]) cfg);
               LogInfo "Done!" []]
       ∧ config.PublicURL (config.SSH cfg)
         = "ssh://" +:+ Config.Host ocfg +:+ ":" +:+ Itoa (Config.Port ocfg)).
Proof.
  assert (∀ p, (rank (BoundedDepth := mock_BoundedDepth Example.yamlDoc
                                        Example.jsonDoc) p < 17)%nat)
    as Hrank by (intros p; cbn; unfold Mock.limit; lia).
  split; [|split; [exact Hrank|split; [|split]]].
  - assert (∃ cfg s',
              migrate (P := Example.platform) 0 "" Mock.defaultConfig
                Example.yamlDoc (Example.start Example.populated)
              = Some (Ok cfg, s')) as (cfg & s' & Hrun)
      by (eexists _, _; vm_compute; reflexivity).
    exists cfg, s'. split; [exact Hrun|].
    exact (proj1 (proj2 (proj2 (public_url_of_host_and_port
                   (P := Example.platform) 0 (Example.start Example.populated))))
             "" Mock.defaultConfig Example.yamlDoc cfg s' Hrun).
  - exact (proj2 (proj2 (proj2 (proj2 (proj2 (proj2
             (public_url_of_host_and_port (P := Example.platform) 17
                (Example.start Example.legacy))))))
             (mock_BoundedDepth Example.yamlDoc Example.jsonDoc) Hrank)).
  - vm_compute. reflexivity.
  - destruct (proj2 (proj2 (proj2 (proj2 (proj2 (proj2
                (public_url_of_host_and_port (P := Example.platform) 17
                   (Example.start Example.legacy))))))
                (mock_BoundedDepth Example.yamlDoc Example.jsonDoc) Hrank)
                (Example.start Example.legacy)) as (r & s' & Hrun).
    assert ((λ x, x.1.1)
              <$> Example.summary
                    (RunE (P := Example.platform) 17
                       (Example.start Example.legacy)) = Some (Ok tt))
      as Hok by (vm_compute; reflexivity).
    rewrite Hrun in Hok. cbn in Hok. injection Hok as ->.
    destruct (proj1 (proj2 (proj2 (proj2 (public_url_of_host_and_port
                (P := Example.platform) 17 (Example.start Example.legacy)))))
                s' Hrun)
      as (cfg0 & s1 & ocfg & cfg & sm & Hpro & Hread & Hmig & Htr & Hurl).
    exists s', cfg0, s1, ocfg, cfg, sm. split; [exact Hrun|].
    split; [exact Hpro|]. split; [exact Hread|]. split; [exact Hmig|].
    split; [exact Htr|exact Hurl].
Defined.

(** C10 on the two documents: [read-only] is a level and is written,
    [no-such-level] is not a level and only [SetAllowKeyless] is called. *)
Lemma anon_access_written_only_when_valid_witness :
  (∃ s1, setServerSettings (P := Example.platform) Example.jsonDoc
           (Example.start Example.legacy) = Some (Ok tt, s1)
         ∧ trace s1 = [LogInfo "Setting server settings..." [];
                       Called (SetAllowKeyless false)])
  ∧ (∃ s1, setServerSettings (P := Example.platform) Example.yamlDoc
             (Example.start Example.legacy) = Some (Ok tt, s1)
           ∧ calls (trace s1) = [SetAllowKeyless true; SetAnonAccess 1]).
Proof.
  split.
  - destruct (proj1 (anon_access_written_only_when_valid
                       (P := Example.platform) 5 "repos" Mock.defaultConfig
                       Example.jsonDoc (Example.start Example.legacy)))
      as (s1 & evs & Hrun & Htr & Hneg & _).
    exists s1. split; [exact Hrun|]. rewrite Htr.
    destruct Hneg as [_ ->]; by vm_compute.
  - destruct (proj1 (anon_access_written_only_when_valid
                       (P := Example.platform) 5 "repos" Mock.defaultConfig
                       Example.yamlDoc (Example.start Example.legacy)))
      as (s1 & evs & Hrun & Htr & _ & Hpos).
    exists s1. split; [exact Hrun|]. rewrite Htr. apply Hpos. by vm_compute.
Defined.
(** ** The added statements at work *)

(** X1 on [Example.unconfigured], where the legacy [config] repository is
    missing. *)
Lemma run_fails_only_fatally_witness :
  ∃ e s',
    RunE (P := Example.platform) 3 (Example.start Example.unconfigured)
    = Some (Err e, s')
    ∧ wrappedBy fatalPrefixes e.
Proof.
  assert (∃ e s',
            RunE (P := Example.platform) 3 (Example.start Example.unconfigured)
            = Some (Err e, s')) as (e & s' & Hrun)
    by (eexists _, _; vm_compute; reflexivity).
  exists e, s'. split; [exact Hrun|].
  destruct (run_fails_only_fatally (P := Example.platform) 3 _ _ _ Hrun)
    as [Hwrapped|(ocfg & w & Hwrite)]; [exact Hwrapped|].
  discriminate Hwrite.
Defined.

(** X2 on [Example.keyed]: the run ends with the call of the writer. *)
Lemma config_written_once_at_the_end_witness :
  ∃ s' evs,
    RunE (P := Example.platform) 0 (Example.start Example.keyed)
    = Some (Ok tt, s')
    ∧ trace s' = evs
    ∧ ((is_Ok (Ok tt) = false
        ∧ Forall (λ c, isWriteConfig c = false) (calls evs))
       ∨ ∃ evs0 write,
           evs = evs0 ++ [LogInfo "Writing config..." []; Called write;
                          LogInfo "Done!" []]
           ∧ isWriteConfig write = true
           ∧ Forall (λ c, isWriteConfig c = false) (calls evs0)).
Proof.
  assert (∃ s', RunE (P := Example.platform) 0 (Example.start Example.keyed)
                = Some (Ok tt, s')) as [s' Hrun]
    by (eexists; vm_compute; reflexivity).
  destruct (config_written_once_at_the_end (P := Example.platform) 0 _ _ _ Hrun)
    as (evs & Htr & Hshape).
  exists s', evs. split; [exact Hrun|]. split; [exact Htr|]. exact Hshape.
Defined.

(** X3 on [Example.keyed]: the bind address and the copy of the host key
    are in the written configuration, and its name is the one of the
    document behind [config.json], which is what the reader returns after the
    prologue of this run. *)
Lemma written_config_fields_witness :
  ∃ s' cfg0 s1 ocfg evs cfg,
    RunE (P := Example.platform) 0 (Example.start Example.keyed)
    = Some (Ok tt, s')
    ∧ prologue (P := Example.platform) (Example.start Example.keyed)
      = Some (Ok cfg0, s1)
    ∧ readConfig (P := Example.platform) "" s1 = Some (Ok ocfg, s1)
    ∧ trace s' = evs
        ++ [LogInfo "Writing config..." [];
            Called (WriteConfig "data/config.yaml" cfg);
            LogInfo "Done!" []]
    ∧ config.Name cfg = Config.Name ocfg
    ∧ config.DataPath cfg = "data"
    ∧ config.ListenAddr (config.SSH cfg) = ":2222"
    ∧ config.KeyPath (config.SSH cfg) = "data/ssh/host_ed25519"
    ∧ (λ x, last x.1.2)
        <$> Example.summary
              (RunE (P := Example.platform) 0 (Example.start Example.keyed))
      = Some (Some (WriteConfig "data/config.yaml"
                      (config.mk "From JSON"
                         (config.mkSSH ":2222" "data/ssh/host_ed25519"
                            "ssh://json.example.com:22")
                         "data"))).
Proof.
  assert (∃ s', RunE (P := Example.platform) 0 (Example.start Example.keyed)
                = Some (Ok tt, s')) as [s' Hrun]
    by (eexists; vm_compute; reflexivity).
  destruct (written_config_fields (P := Example.platform) 0 _ _ Hrun)
    as (cfg0 & s1 & ocfg & evs & cfg & Hpro & Hread & Htr & Hname & Hdata
        & Hlisten & Hkey).
  exists s', cfg0, s1, ocfg, evs, cfg. split; [exact Hrun|].
  split; [exact Hpro|]. split; [exact Hread|]. split; [exact Htr|].
  split; [exact Hname|]. split; [exact Hdata|].
  split; [exact Hlisten|]. split; [exact Hkey|].
  vm_compute. reflexivity.
Defined.

(** X4 on [Example.unconfigured], where the run stops at the reader and
    the initialisation is its only call, and on [Example.keyed], where the
    run issues other calls: there the prologue has succeeded and the reader
    has returned a legacy configuration. *)
Lemma backend_untouched_until_config_read_witness :
  (∃ r s' evs,
     RunE (P := Example.platform) 3 (Example.start Example.unconfigured)
     = Some (r, s')
     ∧ trace s' = Called (NewSqliteBackend Mock.defaultConfig) :: evs
     ∧ Forall (λ c, isNewSqliteBackend c = false) (calls evs)
     ∧ (calls evs = []
        ∨ ∃ cfg0 s1 ocfg,
            prologue (P := Example.platform)
              (Example.start Example.unconfigured) = Some (Ok cfg0, s1)
            ∧ readConfig (P := Example.platform) "repos" s1
              = Some (Ok ocfg, s1)))
  ∧ (∃ s' evs,
       RunE (P := Example.platform) 0 (Example.start Example.keyed)
       = Some (Ok tt, s')
       ∧ trace s' = Called (NewSqliteBackend Mock.defaultConfig) :: evs
       ∧ Forall (λ c, isNewSqliteBackend c = false) (calls evs)
       ∧ length (calls evs) = 2%nat
       ∧ ∃ cfg0 s1 ocfg,
           prologue (P := Example.platform) (Example.start Example.keyed)
           = Some (Ok cfg0, s1)
           ∧ readConfig (P := Example.platform) "" s1 = Some (Ok ocfg, s1)).
Proof.
  split.
  - assert (∃ r s',
              RunE (P := Example.platform) 3
                (Example.start Example.unconfigured) = Some (r, s'))
      as (r & s' & Hrun) by (eexists _, _; vm_compute; reflexivity).
    destruct (backend_untouched_until_config_read (P := Example.platform) 3
                _ _ _ Hrun) as (evs & Htr & Hall & Hread).
    exists r, s', evs. split; [exact Hrun|]. split; [exact Htr|].
    split; [exact Hall|exact Hread].
  - assert (∃ s',
              RunE (P := Example.platform) 0 (Example.start Example.keyed)
              = Some (Ok tt, s')) as [s' Hrun]
      by (eexists; vm_compute; reflexivity).
    assert ((λ x, length x.1.2)
              <$> Example.summary
                    (RunE (P := Example.platform) 0
                       (Example.start Example.keyed)) = Some 3%nat)
      as Hlen by (vm_compute; reflexivity).
    destruct (backend_untouched_until_config_read (P := Example.platform) 0
                _ _ _ Hrun) as (evs & Htr & Hall & Hread).
    rewrite Hrun in Hlen.
    change (Some (length (calls (trace s'))) = Some 3%nat)
      in Hlen.
    cbn [Example.start trace app] in Htr. rewrite Htr in Hlen.
    rewrite (calls_Called (P := Example.platform)) in Hlen.
    injection Hlen as Hlen.
    exists s', evs. split; [exact Hrun|]. split; [exact Htr|].
    split; [exact Hall|]. split; [exact Hlen|].
    destruct Hread as [Hnil|Hread]; [|exact Hread].
    assert (2%nat = 0%nat) as Habs
      by exact (eq_trans (eq_sym Hlen) (f_equal length Hnil)).
    discriminate Habs.
Defined.

(** X5 on [Example.keyed]: the public half of the key is missing, which is
    logged; the key path is set all the same. *)
Lemma host_key_public_half_best_effort_witness :
  Example.summary
    (match copySSHHostKey (P := Example.platform) "keys/host_ed25519"
             Mock.defaultConfig (Example.start Example.keyed) with
     | Some (Ok cfg, s') =>
         if String.eqb (config.KeyPath (config.SSH cfg))
              "data/ssh/host_ed25519"
         then Some (Ok tt, s') else None
     | _ => None
     end)
  = Some (Ok tt, [],
          [LogError "failed to copy ssh key: %s"
             [AErr (errorString
                      "open keys/host_ed25519.pub: no such file or directory")]]).
Proof.
  pose proof (host_key_public_half_best_effort (P := Example.platform)
                "keys/host_ed25519" Mock.defaultConfig
                (Example.start Example.keyed)) as [_ Hkey].
  destruct (Hkey ltac:(done) _ eq_refl) as [_ Hpub].
  erewrite Hpub; [|vm_compute; reflexivity|vm_compute; reflexivity].
  vm_compute. reflexivity.
Defined.

(** X10 on [Example.legacy]: the file [notes.txt] is passed over. *)
Lemma import_skips_non_repositories_witness :
  forM_ [mkDirEntry "notes.txt" false; mkDirEntry "a" true]
    (copyRepo (P := Example.platform) 5 "repos" Mock.defaultConfig)
    (Example.start Example.legacy)
  = forM_ [mkDirEntry "a" true]
      (copyRepo (P := Example.platform) 5 "repos" Mock.defaultConfig)
      (Example.start Example.legacy).
Proof.
  apply (proj2 (proj2 (import_skips_non_repositories (P := Example.platform)
                         5 "repos" Mock.defaultConfig
                         (Example.start Example.legacy)))).
  by left.
Defined.

(** X11 on [Example.unconfigured], whose storage root lists the one
    repository [a]. *)
Lemma import_registers_listed_directories_witness :
  ∃ r s' evs ds,
    copyRepos (P := Example.platform) 5 "repos" Mock.defaultConfig
      (Example.start Example.unconfigured) = Some (r, s')
    ∧ trace s' = evs
    ∧ calls evs = map (λ d, CreateRepository (de_Name d)) ds.
Proof.
  assert (∃ r s',
            copyRepos (P := Example.platform) 5 "repos" Mock.defaultConfig
              (Example.start Example.unconfigured) = Some (r, s'))
    as (r & s' & Hrun) by (eexists _, _; vm_compute; reflexivity).
  destruct (import_registers_listed_directories (P := Example.platform) 5
              _ _ _ _ _ Hrun) as (evs & ds & Htr & Hcalls & _).
  exists r, s', evs, ds. split; [exact Hrun|]. split; [exact Htr|].
  exact Hcalls.
Defined.

(** X13 on [Example.keyed]: the host key is copied, and the trace is as
    before. *)
Lemma copyFile_closes_what_it_opens_witness :
  ∃ s',
    copyFile (P := Example.platform) "keys/host_ed25519" "keys/copy"
      (Example.start Example.keyed) = Some (Ok tt, s')
    ∧ trace s' = [].
Proof.
  assert (∃ s',
            copyFile (P := Example.platform) "keys/host_ed25519" "keys/copy"
              (Example.start Example.keyed) = Some (Ok tt, s'))
    as [s' Hrun] by (eexists; vm_compute; reflexivity).
  exists s'. split; [exact Hrun|].
  exact (proj1 (copyFile_closes_what_it_opens (P := Example.platform)
                  _ _ _ _ _ Hrun)).
Defined.

(** X16 on [Example.jane]. *)
Lemma username_normal_form_witness :
  String.length (usernameOf (P := Example.platform) Example.jane) = 8%nat
  ∧ usernameOf (P := Example.platform)
      (User.mk "jane-doe" true [] []) = "jane-doe".
Proof.
  destruct (username_normal_form (P := Example.platform) Example.jane eq_refl)
    as (Hlen & _ & _ & _).
  split; [exact Hlen|].
  destruct (username_normal_form (P := Example.platform)
              (User.mk "jane-doe" true [] []) eq_refl)
    as (_ & _ & _ & Hfix).
  exact Hfix.
Defined.

(** X18 on [Example.jane] and [Example.janeShuffled]. *)
Lemma key_forms_ignore_order_witness :
  Mock.MarshalAuthorizedKey
    <$> pubkeysOf (P := Example.platform) Example.jane Example.legacy
  ≡ₚ Mock.MarshalAuthorizedKey
       <$> pubkeysOf (P := Example.platform) Example.janeShuffled
             Example.keyed.
Proof.
  apply (key_forms_ignore_order (P := Example.platform)).
  change (User.PublicKeys Example.janeShuffled)
    with (reverse (User.PublicKeys Example.jane)).
  by rewrite reverse_Permutation.
Defined.
